(** * Action-item extraction of the meeting dashboard (sync.js)

    A shallow embedding of [extractActionItems] and of the host operations
    it calls (string trimming and splitting, the regular expressions of the
    section, terminator, owner and action patterns, the [Set]-based
    deduplication), followed by the properties of the extraction engine. *)

From Stdlib Require Import String Ascii Sorted.
From stdpp Require Import base list gmap.

Local Open Scope N_scope.

(** ** JavaScript strings

    A JavaScript string is a sequence of UTF-16 code units; [length],
    [slice], [trim] and the regular expressions without the [u] flag all
    work on code units. *)

Definition jsstring : Type := list N.

(** An ASCII literal of the source as a sequence of code units. *)
Definition js (s : string) : jsstring :=
  (fun a => N_of_ascii a) <$> list_ascii_of_string s.

(** WhiteSpace and LineTerminator of ECMAScript: the characters removed by
    [String.prototype.trim] and matched by the class escape [\s]. *)
Definition isWhiteSpace (c : N) : bool :=
  (c =? 9) || (c =? 11) || (c =? 12) || (c =? 32) || (c =? 160)
  || (c =? 5760) || ((8192 <=? c) && (c <=? 8202)) || (c =? 8239)
  || (c =? 8287) || (c =? 12288) || (c =? 65279).

Definition isLineTerminator (c : N) : bool :=
  (c =? 10) || (c =? 13) || (c =? 8232) || (c =? 8233).

Definition isSpace (c : N) : bool := isWhiteSpace c || isLineTerminator c.

(** [\w] without the [u] flag: [A-Za-z0-9_]. *)
Definition isWord (c : N) : bool :=
  ((65 <=? c) && (c <=? 90)) || ((97 <=? c) && (c <=? 122))
  || ((48 <=? c) && (c <=? 57)) || (c =? 95).

(** [.] without the [s] flag: anything but a line terminator. *)
Definition isDot (c : N) : bool := negb (isLineTerminator c).

Definition isUpperAZ (c : N) : bool := (65 <=? c) && (c <=? 90).
Definition isLowerAZ (c : N) : bool := (97 <=? c) && (c <=? 122).

(** [[-*•]]: hyphen, asterisk, U+2022 BULLET. *)
Definition isBullet (c : N) : bool := (c =? 45) || (c =? 42) || (c =? 8226).

(** [[- ]] *)
Definition isHyphenOrSpace (c : N) : bool := (c =? 45) || (c =? 32).

Definition isHash (c : N) : bool := c =? 35.

Fixpoint dropWhile (p : N -> bool) (s : jsstring) : jsstring :=
  match s with
  | [] => []
  | c :: t => if p c then dropWhile p t else s
  end.

(** [s.trim()] *)
Definition trim (s : jsstring) : jsstring :=
  reverse (dropWhile isSpace (reverse (dropWhile isSpace s))).

(** [s.split(sep)] for a separator of one code unit. The result is never
    the empty array: splitting the empty string gives one empty string. *)
Fixpoint split (sep : N) (s : jsstring) : list jsstring :=
  match s with
  | [] => [[]]
  | c :: t =>
      if c =? sep then [] :: split sep t
      else match split sep t with
           | [] => [[c]]
           | w :: ws => (c :: w) :: ws
           end
  end.

(** [s.startsWith(p)] *)
Fixpoint startsWith (s p : jsstring) : bool :=
  match p, s with
  | [], _ => true
  | _ :: _, [] => false
  | a :: p', c :: s' => (c =? a) && startsWith s' p'
  end.

(** [s.includes(p)] *)
Fixpoint includes (s p : jsstring) : bool :=
  startsWith s p ||
  match s with
  | [] => false
  | _ :: t => includes t p
  end.

(** [s.slice(n)] and [s.slice(0, n)] for a literal [n >= 0]. *)
Definition sliceFrom (n : nat) (s : jsstring) : jsstring := drop n s.
Definition sliceTo (n : nat) (s : jsstring) : jsstring := take n s.

(** Truthiness of a string value: the empty string is falsy. *)
Definition truthy (s : jsstring) : bool :=
  match s with [] => false | _ => true end.

(** ** Regular expressions

    The patterns of the source use literals, character classes, greedy
    quantifiers over one character class, optional groups, ordered
    alternation, the anchor [^] and one capture group. The matcher is the
    backtracking matcher of ECMAScript in continuation-passing style: a
    continuation that fails makes the matcher try its next choice. *)

Inductive regex : Type :=
| Bol                                             (* ^ *)
| Lit (s : jsstring)                              (* literal characters *)
| Class (p : N -> bool)                           (* one character of a class *)
| Seq (r1 r2 : regex)
| Alt (r1 r2 : regex)                             (* r1|r2 *)
| Opt (r : regex)                                 (* (?:r)? *)
| Rep (p : N -> bool) (lo : nat) (hi : option nat) (* p{lo,hi}, greedy *)
| Group (r : regex).                              (* (r), capture 1 *)

Record RegExp : Type := mkRegExp { source : regex; ignoreCase : bool }.

Fixpoint cat (rs : list regex) : regex :=
  match rs with
  | [] => Lit []
  | [r] => r
  | r :: rs' => Seq r (cat rs')
  end.

Fixpoint alts (r : regex) (rs : list regex) : regex :=
  match rs with
  | [] => r
  | r' :: rs' => Alt r (alts r' rs')
  end.

Definition star (p : N -> bool) : regex := Rep p 0 None.
Definition plus (p : N -> bool) : regex := Rep p 1 None.

(** Canonicalize of ECMAScript for a pattern without the [u] flag. Every
    literal under the [i] flag in the source is ASCII, and a code unit
    above 127 never canonicalizes to an ASCII one, so that upper-casing the
    ASCII letters decides the comparison. *)
Definition upperAscii (c : N) : N :=
  if (97 <=? c) && (c <=? 122) then c - 32 else c.

Definition canonicalize (ic : bool) (c : N) : N :=
  if ic then upperAscii c else c.

Record MatchState : Type := mkMS {
  endIndex : nat;               (* characters consumed so far *)
  remaining : jsstring;         (* input from endIndex on *)
  capture1 : option jsstring    (* capture group 1, None when undefined *)
}.

Definition advance (n : nat) (st : MatchState) : MatchState :=
  mkMS (endIndex st + n)%nat (drop n (remaining st)) (capture1 st).

Fixpoint litPrefix (ic : bool) (l s : jsstring) : bool :=
  match l, s with
  | [], _ => true
  | _ :: _, [] => false
  | a :: l', c :: s' =>
      (canonicalize ic c =? canonicalize ic a) && litPrefix ic l' s'
  end.

Fixpoint runLength (p : N -> bool) (s : jsstring) : nat :=
  match s with
  | [] => 0
  | c :: t => if p c then S (runLength p t) else 0
  end.

Definition Continuation : Type := MatchState -> option MatchState.

(** Greedy repetition: the longest run first, then one character fewer
    each time the continuation fails, down to [lo]. *)
Fixpoint tryDown (n lo : nat) (st : MatchState) (k : Continuation)
  : option MatchState :=
  match k (advance n st) with
  | Some e => Some e
  | None =>
      match n with
      | O => None
      | S n' => if (lo <=? n')%nat then tryDown n' lo st k else None
      end
  end.

Definition capRun (hi : option nat) (n : nat) : nat :=
  match hi with
  | Some h => n `min` h
  | None => n
  end.

Fixpoint matcher (ic : bool) (r : regex) (st : MatchState) (k : Continuation)
  : option MatchState :=
  match r with
  | Bol => if (endIndex st =? 0)%nat then k st else None
  | Lit l =>
      if litPrefix ic l (remaining st) then k (advance (length l) st)
      else None
  | Class p =>
      match remaining st with
      | c :: _ => if p c then k (advance 1 st) else None
      | [] => None
      end
  | Seq r1 r2 => matcher ic r1 st (fun st1 => matcher ic r2 st1 k)
  | Alt r1 r2 =>
      match matcher ic r1 st k with
      | Some e => Some e
      | None => matcher ic r2 st k
      end
  | Opt r1 =>
      match matcher ic r1 st k with
      | Some e => Some e
      | None => k st
      end
  | Rep p lo hi =>
      let n := capRun hi (runLength p (remaining st)) in
      if (lo <=? n)%nat then tryDown n lo st k else None
  | Group r1 =>
      matcher ic r1 st (fun st1 =>
        k (mkMS (endIndex st1) (remaining st1)
             (Some (take (endIndex st1 - endIndex st) (remaining st)))))
  end.

(** The result of [RegExp.prototype.exec] / [String.prototype.match]
    without the [g] flag: [index], [m[0]] and [m[1]]. *)
Record MatchResult : Type := mkMatch {
  index : nat;
  m0 : jsstring;
  m1 : option jsstring
}.

(** The search of [exec]: the first start position, from the left, at
    which the pattern matches. *)
Fixpoint search (re : RegExp) (i : nat) (s : jsstring) : option MatchResult :=
  match matcher (ignoreCase re) (source re) (mkMS i s None) Some with
  | Some e => Some (mkMatch i (take (endIndex e - i) s) (capture1 e))
  | None =>
      match s with
      | [] => None
      | _ :: t => search re (S i) t
      end
  end.

Definition exec (re : RegExp) (s : jsstring) : option MatchResult :=
  search re 0 s.

(** [re.test(s)] *)
Definition test (re : RegExp) (s : jsstring) : bool :=
  match exec re s with Some _ => true | None => false end.

(** [patterns.some((p) => p.test(s))] *)
Definition matchesSome (patterns : list RegExp) (s : jsstring) : bool :=
  existsb (fun p => test p s) patterns.

(** [s.replace(re, "")] for a pattern without the [g] flag: the first match
    is removed. *)
Definition replaceEmpty (re : RegExp) (s : jsstring) : jsstring :=
  match exec re s with
  | Some m => take (index m) s ++ drop (index m + length (m0 m)) s
  | None => s
  end.

(** ** The patterns of [extractActionItems] *)

(** Patterns that indicate action item sections. *)
Definition sectionPatterns : list RegExp := [
  (* /^next\s*steps/i *)
  mkRegExp (cat [Bol; Lit (js "next"); star isSpace; Lit (js "steps")]) true;
  (* /^action\s*items/i *)
  mkRegExp (cat [Bol; Lit (js "action"); star isSpace; Lit (js "items")]) true;
  (* /^follow[- ]?ups?/i *)
  mkRegExp (cat [Bol; Lit (js "follow"); Opt (Class isHyphenOrSpace);
                 Lit (js "up"); Opt (Lit (js "s"))]) true;
  (* /^to[- ]?do/i *)
  mkRegExp (cat [Bol; Lit (js "to"); Opt (Class isHyphenOrSpace);
                 Lit (js "do")]) true;
  (* /^tasks?\s*:/i *)
  mkRegExp (cat [Bol; Lit (js "task"); Opt (Lit (js "s")); star isSpace;
                 Lit (js ":")]) true;
  (* /^deliverables/i *)
  mkRegExp (cat [Bol; Lit (js "deliverables")]) true
].

(** /^#{1,3}\s/ *)
Definition headingPattern : RegExp :=
  mkRegExp (cat [Bol; Rep isHash 1 (Some 3%nat); Class isSpace]) false.

(** Patterns that indicate end of action section. *)
Definition endPatterns : list RegExp := [
  (* /^chat with meeting transcript/i *)
  mkRegExp (cat [Bol; Lit (js "chat with meeting transcript")]) true;
  headingPattern;
  (* /^[A-Z][a-z]+ [A-Z][a-z]+ &/ *)
  mkRegExp (cat [Bol; Class isUpperAZ; plus isLowerAZ; Lit (js " ");
                 Class isUpperAZ; plus isLowerAZ; Lit (js " &")]) false
].

(** (\w+(?:\s\w+)?) *)
Definition leadingWords : regex :=
  Group (cat [plus isWord; Opt (cat [Class isSpace; plus isWord])]).

(** (?:to|will|should|needs? to) *)
Definition modal : regex :=
  alts (Lit (js "to"))
       [Lit (js "will"); Lit (js "should");
        cat [Lit (js "need"); Opt (Lit (js "s")); Lit (js " to")]].

(** (?:Blake|Jacob|Brien|Cole|Cory|Ally|Jenna|Jennifer|Al) *)
Definition knownNames : regex :=
  alts (Lit (js "Blake"))
       [Lit (js "Jacob"); Lit (js "Brien"); Lit (js "Cole"); Lit (js "Cory");
        Lit (js "Ally"); Lit (js "Jenna"); Lit (js "Jennifer"); Lit (js "Al")].

(** /^(\w+(?:\s\w+)?)\s*:/ *)
Definition ownerPattern : RegExp :=
  mkRegExp (cat [Bol; leadingWords; star isSpace; Lit (js ":")]) false.

(** /^[-*•]\s*/ *)
Definition bulletPattern : RegExp :=
  mkRegExp (cat [Bol; Class isBullet; star isSpace]) false.

(** /(?:Blake|...|Al)\s+(?:to|will|should|needs? to)\s+(.+)/i *)
Definition actionPattern : RegExp :=
  mkRegExp (cat [knownNames; plus isSpace; modal; plus isSpace;
                 Group (plus isDot)]) true.

Definition actionPatterns : list RegExp := [actionPattern].

(** /^(\w+(?:\s\w+)?)\s+(?:to|will|should|needs? to)/i *)
Definition ownerNamePattern : RegExp :=
  mkRegExp (cat [Bol; leadingWords; plus isSpace; modal]) true.

(** ** Completions

    A call either returns a value or throws; [Diverge] is the model's
    iteration budget running out, which the loops below never reach. *)

Inductive completion (A : Type) : Type :=
| Normal (a : A)
| Throw (e : string)
| Diverge.

Arguments Normal {A} a.
Arguments Throw {A} e.
Arguments Diverge {A}.

#[global] Instance completion_ret : MRet completion := fun A a => Normal a.
#[global] Instance completion_bind : MBind completion := fun A B f c =>
  match c with
  | Normal a => f a
  | Throw e => Throw e
  | Diverge => Diverge
  end.

(** ** The extraction *)

(** An element of [items]: [{ item, owner }]. The owner is [None] when the
    JavaScript value is [undefined]. *)
Record Item : Type := mkItem {
  item : jsstring;
  owner : option jsstring
}.

(** The variables of the scan, local to one call. *)
Record LoopState : Type := mkLoop {
  inActionSection : bool;
  currentOwner : option jsstring;   (* None is null *)
  items : list Item
}.

Definition initialState : LoopState := mkLoop false None [].

Definition push (st : LoopState) (it : Item) : LoopState :=
  mkLoop (inActionSection st) (currentOwner st) (items st ++ [it]).

(** [a || b] where [a] is null, undefined or a string and [b] a string. *)
Definition orElse (a : option jsstring) (b : jsstring) : jsstring :=
  match a with
  | Some s => if truthy s then s else b
  | None => b
  end.

Definition defaultOwner : jsstring := js "Blake".

Section Extraction.

(** [String.prototype.toLowerCase], whose Unicode case tables belong to the
    host and not to the repository. *)
Variable toLowerCase : jsstring -> jsstring.

(** The loop over [attendees] that tries to detect the owner from the
    line; [break] on the first attendee that matches. *)
Fixpoint detectOwner (line : jsstring) (attendees : list jsstring)
  : completion jsstring :=
  match attendees with
  | [] => Normal defaultOwner
  | name :: attendees' =>
      match split 32 name !! 0%nat with
      | None => Throw "TypeError: Cannot read properties of undefined"
      | Some firstName =>
          if includes (toLowerCase line) (toLowerCase firstName ++ js " to ")
             || includes (toLowerCase line)
                         (toLowerCase firstName ++ js " will ")
             || startsWith (toLowerCase line) (toLowerCase firstName)
          then Normal name
          else detectOwner line attendees'
      end
  end.

(** The standalone action-like patterns outside sections. *)
Definition standalone (line : jsstring) (st : LoopState) : LoopState :=
  foldl (fun acc pattern =>
           match exec pattern line with
           | Some m =>
               let ownerName := exec ownerNamePattern line in
               push acc (mkItem (m0 m)
                           (match ownerName with
                            | Some o => m1 o
                            | None => Some defaultOwner
                            end))
           | None => acc
           end) st actionPatterns.

(** One iteration of the loop over the lines. Each [continue] of the
    source is a branch that returns the state. *)
Definition loopBody (attendees : list jsstring) (raw : jsstring)
    (st : LoopState) : completion LoopState :=
  let line := trim raw in
  if negb (truthy line) then Normal st
  else if matchesSome sectionPatterns line then
    Normal (mkLoop true (currentOwner st) (items st))
  else if matchesSome endPatterns line && inActionSection st then
    Normal (mkLoop false (currentOwner st) (items st))
  else
    match exec ownerPattern line, inActionSection st with
    | Some ownerMatch, true =>
        let owner' := m1 ownerMatch in
        let rest := trim (sliceFrom (length (m0 ownerMatch)) line) in
        Normal (mkLoop true owner'
                  (if truthy rest then items st ++ [mkItem rest owner']
                   else items st))
    | _, _ =>
        st1 ← (if inActionSection st && (10 <? length line)%nat then
                 o ← detectOwner line attendees;
                 Normal (push st (mkItem (replaceEmpty bulletPattern line)
                                    (Some (orElse (currentOwner st) o))))
               else Normal st);
        if negb (inActionSection st1) then Normal (standalone line st1)
        else Normal st1
    end.

(** [for (let i = 0; i < lines.length; i++)]; [budget] bounds the
    iterations that remain. *)
Fixpoint forLines (attendees : list jsstring) (lines : list jsstring)
    (budget i : nat) (st : LoopState) : completion LoopState :=
  if (i <? length lines)%nat then
    match budget with
    | O => Diverge
    | S budget' =>
        match lines !! i with
        | None => Throw "TypeError: Cannot read properties of undefined"
        | Some raw =>
            st' ← loopBody attendees raw st;
            forLines attendees lines budget' (S i) st'
        end
    end
  else Normal st.

(** The callback of [items.filter] with its [seen] set. *)
Definition dedupKey (it : Item) : jsstring :=
  sliceTo 50 (toLowerCase (item it)).

Fixpoint filterSeen (seen : gset jsstring) (its : list Item) : list Item :=
  match its with
  | [] => []
  | it :: its' =>
      let key := dedupKey it in
      if decide (key ∈ seen) then filterSeen seen its'
      else it :: filterSeen ({[key]} ∪ seen) its'
  end.

Definition extractActionItems (panelText meetingTitle meetingDate : jsstring)
    (attendees : list jsstring) : completion (list Item) :=
  let lines := split 10 panelText in
  st ← forLines attendees lines (length lines) 0 initialState;
  Normal (filterSeen ∅ (items st)).

End Extraction.

(** ASCII lower-casing, the behaviour of [toLowerCase] on ASCII strings. *)
Definition lowerAscii (c : N) : N :=
  if (65 <=? c) && (c <=? 90) then c + 32 else c.

Definition asciiLowerCase (s : jsstring) : jsstring := lowerAscii <$> s.

(** ** Declarative reading of the matcher

    [matches ic r a b]: pattern [r] can take the match state [a] to [b].
    The matcher only ever hands such states to its continuation. *)

Inductive matches (ic : bool) : regex -> MatchState -> MatchState -> Prop :=
| M_Bol st :
    endIndex st = 0%nat -> matches ic Bol st st
| M_Lit l st :
    litPrefix ic l (remaining st) = true ->
    matches ic (Lit l) st (advance (length l) st)
| M_Class p c t st :
    remaining st = c :: t -> p c = true ->
    matches ic (Class p) st (advance 1 st)
| M_Seq r1 r2 a b c :
    matches ic r1 a b -> matches ic r2 b c -> matches ic (Seq r1 r2) a c
| M_AltL r1 r2 a b :
    matches ic r1 a b -> matches ic (Alt r1 r2) a b
| M_AltR r1 r2 a b :
    matches ic r2 a b -> matches ic (Alt r1 r2) a b
| M_OptSome r a b :
    matches ic r a b -> matches ic (Opt r) a b
| M_OptNone r a :
    matches ic (Opt r) a a
| M_Rep p lo hi n st :
    (lo <= n)%nat -> (n <= capRun hi (runLength p (remaining st)))%nat ->
    matches ic (Rep p lo hi) st (advance n st)
| M_Group r a b :
    matches ic r a b ->
    matches ic (Group r) a
      (mkMS (endIndex b) (remaining b)
         (Some (take (endIndex b - endIndex a) (remaining a)))).

(** The least number of characters a pattern consumes. *)
Fixpoint minLen (r : regex) : nat :=
  match r with
  | Bol => 0
  | Lit l => length l
  | Class _ => 1
  | Seq r1 r2 => minLen r1 + minLen r2
  | Alt r1 r2 => minLen r1 `min` minLen r2
  | Opt _ => 0
  | Rep _ lo _ => lo
  | Group r1 => minLen r1
  end.

Fixpoint noGroup (r : regex) : bool :=
  match r with
  | Group _ => false
  | Seq r1 r2 | Alt r1 r2 => noGroup r1 && noGroup r2
  | Opt r1 => noGroup r1
  | _ => true
  end.

(** A string is trimmed when [trim] leaves it as it is. *)
Definition trimmed (s : jsstring) : Prop := trim s = s.

(** The lines of the scan, one after the other, without the index. *)
Fixpoint scan (toLowerCase : jsstring -> jsstring) (attendees : list jsstring)
    (lines : list jsstring) (st : LoopState) : completion LoopState :=
  match lines with
  | [] => Normal st
  | raw :: lines' =>
      st' ← loopBody toLowerCase attendees raw st;
      scan toLowerCase attendees lines' st'
  end.

(** The candidates the standalone rule pushes for one line. *)
Definition standaloneItems (line : jsstring) : list Item :=
  items (standalone line initialState).

(** The first token of an attendee name: the characters before the first
    space. *)
Fixpoint firstToken (name : jsstring) : jsstring :=
  match name with
  | [] => []
  | c :: t => if c =? 32 then [] else c :: firstToken t
  end.

(** The test of the attendee loop for one attendee. *)
Definition attendeeMatches (toLowerCase : jsstring -> jsstring)
    (line name : jsstring) : bool :=
  let firstName := firstToken name in
  includes (toLowerCase line) (toLowerCase firstName ++ js " to ")
  || includes (toLowerCase line) (toLowerCase firstName ++ js " will ")
  || startsWith (toLowerCase line) (toLowerCase firstName).

(** The body of the loop for a non-blank trimmed line, as a function of the
    state. *)
Definition bodyResult (toLowerCase : jsstring -> jsstring)
    (attendees : list jsstring) (line : jsstring)
    (st : LoopState) : LoopState :=
  if matchesSome sectionPatterns line then
    mkLoop true (currentOwner st) (items st)
  else if inActionSection st then
    if matchesSome endPatterns line then
      mkLoop false (currentOwner st) (items st)
    else
      match exec ownerPattern line with
      | Some ownerMatch =>
          let rest := trim (sliceFrom (length (m0 ownerMatch)) line) in
          mkLoop true (m1 ownerMatch)
            (items st ++
             (if truthy rest then [mkItem rest (m1 ownerMatch)] else []))
      | None =>
          if (10 <? length line)%nat then
            push st
              (mkItem (replaceEmpty bulletPattern line)
                 (Some (orElse (currentOwner st)
                          (default defaultOwner
                             (find (attendeeMatches toLowerCase line)
                                attendees)))))
          else st
      end
  else
    mkLoop false (currentOwner st) (items st ++ standaloneItems line).

(** Where the text of a candidate comes from, for a trimmed line: the
    plain-content rule removes one leading bullet marker and the white
    space after it; the owner-prefix rule takes the trimmed remainder of the
    line after the colon; the standalone rule takes the match. *)
Definition emittedBy (line : jsstring) (it : Item) : Prop :=
  (exists c t,
     line = c :: t /\ (10 < length line)%nat
     /\ item it = if isBullet c then dropWhile isSpace t else line)
  \/ (exists om,
        exec ownerPattern line = Some om
        /\ item it = trim (sliceFrom (length (m0 om)) line)
        /\ owner it = m1 om)
  \/ (exists m, exec actionPattern line = Some m /\ item it = m0 m).

(** The match of the standalone rule stops at a line terminator inside the
    line, right after a white-space character: [.] matches no carriage
    return, line separator or paragraph separator, and [split] has taken
    the line feeds. The matched sentence then ends in white space. *)
Definition cutShort (line : jsstring) (it : Item) : Prop :=
  exists m pre t x d post,
    exec actionPattern line = Some m /\ item it = m0 m
    /\ m0 m = t ++ [x] /\ isSpace x = true
    /\ line = pre ++ m0 m ++ d :: post /\ isLineTerminator d = true.

(** What holds of every candidate pushed for a trimmed line: the text is
    not empty and does not begin with white space; it is trimmed, unless
    the standalone match is cut short; the owner is a string, and it is
    empty only if the attendee loop stopped at an attendee whose name is
    the empty string. *)
Definition goodAt (toLowerCase : jsstring -> jsstring)
    (attendees : list jsstring) (line : jsstring) (it : Item) : Prop :=
  item it <> []
  /\ (forall c t, item it = c :: t -> isSpace c = false)
  /\ (trimmed (item it) \/ cutShort line it)
  /\ (exists o,
        owner it = Some o
        /\ (o = [] ->
            find (attendeeMatches toLowerCase line) attendees = Some []))
  /\ emittedBy line it.

(** A line that, inside a section, neither closes the section nor sets an
    owner: a header line, or a line that matches no terminator pattern and
    not the owner-prefix pattern. A blank line is one. *)
Definition keepsOwner (raw : jsstring) : bool :=
  matchesSome sectionPatterns (trim raw)
  || negb (matchesSome endPatterns (trim raw))
     && negb (test ownerPattern (trim raw)).

(** The candidates of such a line inside a section while the owner [o] is
    carried, as the claim has them: a header line gives none, a line of
    more than ten characters gives one, with the owner [o]; its text is
    the trimmed line without one leading bullet marker. *)
Definition carriedItems (o raw : jsstring) : list Item :=
  if matchesSome sectionPatterns (trim raw) then []
  else if (10 <? length (trim raw))%nat
       then [mkItem (replaceEmpty bulletPattern (trim raw)) (Some o)]
       else [].

(** ** Global replacement

    [s.replace(re, rep)] for a pattern with the [g] flag and a replacement
    string without [$]: the matches are replaced from left to right, each
    search starting where the previous match ended. [skip] counts the
    characters of the current match that are still to be passed over; after
    an empty match the next character is copied. *)
Fixpoint replaceFrom (re : RegExp) (rep : jsstring) (skip i : nat)
    (s : jsstring) : jsstring :=
  match s with
  | [] =>
      match skip with
      | O =>
          match matcher (ignoreCase re) (source re) (mkMS i [] None) Some with
          | Some _ => rep
          | None => []
          end
      | S _ => []
      end
  | c :: t =>
      match skip with
      | S k => replaceFrom re rep k (S i) t
      | O =>
          match matcher (ignoreCase re) (source re) (mkMS i s None) Some with
          | Some e =>
              match (endIndex e - i)%nat with
              | O => rep ++ c :: replaceFrom re rep 0 (S i) t
              | S k => rep ++ replaceFrom re rep k (S i) t
              end
          | None => c :: replaceFrom re rep 0 (S i) t
          end
      end
  end.

Definition replaceAll (re : RegExp) (rep s : jsstring) : jsstring :=
  replaceFrom re rep 0 0 s.

(** ** [stripHtml] *)

(** [[^>]] *)
Definition notGt (c : N) : bool := negb (c =? 62).

(** /<[^>]+>/g *)
Definition tagPattern : RegExp :=
  mkRegExp (cat [Lit (js "<"); plus notGt; Lit (js ">")]) false.

(** /&nbsp;/g, /&amp;/g, /&lt;/g, /&gt;/g *)
Definition nbspPattern : RegExp := mkRegExp (Lit (js "&nbsp;")) false.
Definition ampPattern : RegExp := mkRegExp (Lit (js "&amp;")) false.
Definition ltPattern : RegExp := mkRegExp (Lit (js "&lt;")) false.
Definition gtPattern : RegExp := mkRegExp (Lit (js "&gt;")) false.

(** /\s+/g *)
Definition whitespacePattern : RegExp := mkRegExp (plus isSpace) false.

Definition stripHtml (html : jsstring) : jsstring :=
  trim
    (replaceAll whitespacePattern (js " ")
       (replaceAll gtPattern (js ">")
          (replaceAll ltPattern (js "<")
             (replaceAll ampPattern (js "&")
                (replaceAll nbspPattern (js " ")
                   (replaceAll tagPattern (js " ") html)))))).

(** ** The documents of the notes tool *)

(** An attendee record: [a.details?.person?.name?.fullName] and
    [a.email]; [None] when the chain ends in [undefined]. *)
Module Attendee.
Record t : Type := mk {
  fullName : option jsstring;
  email : option jsstring
}.
End Attendee.

(** A document of the cache. [id] is the own [id] property of the
    document, which [{ id, ...doc }] lets override the key of the entry;
    [creatorName] is [doc.people?.creator?.name] and [attendees] is
    [doc.people?.attendees]. *)
Module Document.
Record t : Type := mk {
  id : option jsstring;
  deleted_at : option jsstring;
  creatorName : option jsstring;
  attendees : option (list Attendee.t)
}.
End Document.

(** An AI panel of a document. *)
Module Panel.
Record t : Type := mk {
  title : option jsstring;
  order : option Z;
  original_content : option jsstring
}.
End Panel.

(** [[...new Set(names)]]: the values in the order of their first
    insertion. *)
Fixpoint spreadSet (seen : gset jsstring) (names : list jsstring)
  : list jsstring :=
  match names with
  | [] => []
  | n :: names' =>
      if decide (n ∈ seen) then spreadSet seen names'
      else n :: spreadSet ({[n]} ∪ seen) names'
  end.

Definition getAttendeeNames (doc : Document.t) : list jsstring :=
  let names :=
    match Document.creatorName doc with
    | Some n => if truthy n then [n] else []
    | None => []
    end in
  let names :=
    match Document.attendees doc with
    | Some l =>
        names ++
        ((fun a => orElse (Attendee.fullName a)
                     (orElse (Attendee.email a) (js "Unknown"))) <$> l)
    | None => names
    end in
  spreadSet ∅ names.

(** ** The dataset

    Identifiers are JavaScript numbers that hold integers. They are
    modelled by [Z]; Number arithmetic is exact on the integers below
    [2^53] in absolute value, which the properties assume. *)

Module ActionItem.
Record t : Type := mk {
  id : option Z;                  (* None when the property is missing *)
  item : jsstring;
  owner : option jsstring;
  dueDate : option jsstring;
  status : jsstring;
  meetingTitle : jsstring;
  meetingDate : jsstring;
  dateAdded : jsstring;
  completedDate : option jsstring;
  notes : jsstring
}.
End ActionItem.

Module MeetingLog.
Record t : Type := mk {
  title : jsstring;
  date : jsstring;
  participants : list jsstring;
  actionItemCount : nat
}.
End MeetingLog.

Definition safeInteger (n : Z) : Prop := (- 2 ^ 53 < n < 2 ^ 53)%Z.

(** [i.id || 0] *)
Definition idOrZero (a : ActionItem.t) : Z :=
  match ActionItem.id a with
  | Some n => n
  | None => 0%Z
  end.

(** [Math.max(x, ...xs)] *)
Definition mathMax (x : Z) (xs : list Z) : Z := foldl Z.max x xs.

Definition nextId (items : list ActionItem.t) : Z :=
  match items with
  | [] => 1%Z
  | a :: items' => (mathMax (idOrZero a) (idOrZero <$> items') + 1)%Z
  end.

(** The loop of [run] over the extracted items of one meeting. [clock k]
    is the date the host clock shows in iteration [k]. The result is
    [data.actionItems] and [totalNewItems]. *)
Fixpoint addExtracted (title meetingDate : jsstring) (clock : nat -> jsstring)
    (k : nat) (extracted : list Item) (actionItems : list ActionItem.t)
    (totalNewItems : nat) : list ActionItem.t * nat :=
  match extracted with
  | [] => (actionItems, totalNewItems)
  | ai :: extracted' =>
      let newItem :=
        ActionItem.mk (Some (nextId actionItems)) (item ai) (owner ai) None
          (js "open") title meetingDate (clock k) None [] in
      addExtracted title meetingDate clock (S k) extracted'
        (actionItems ++ [newItem]) (S totalNewItems)
  end.

(** The entry of the meeting log: pushed unless an entry with the same
    title and date is found. *)
Definition logMeeting (meetings : list MeetingLog.t)
    (title meetingDate : jsstring) (attendees : list jsstring)
    (count : nat) : list MeetingLog.t :=
  match find (fun m => bool_decide (MeetingLog.title m = title)
                       && bool_decide (MeetingLog.date m = meetingDate))
             meetings with
  | Some _ => meetings
  | None => meetings ++ [MeetingLog.mk title meetingDate attendees count]
  end.

(** ** The panel text of a meeting *)

(** [a.order || 0] *)
Definition orderOrZero (p : Panel.t) : Z :=
  match Panel.order p with
  | Some n => n
  | None => 0%Z
  end.

(** [Array.prototype.sort] with the comparator
    [(a, b) => (a.order || 0) - (b.order || 0)]. The sort is stable: of two
    panels the comparator does not separate, the earlier stays first. *)
Fixpoint insertPanel (p : Panel.t) (sorted : list Panel.t) : list Panel.t :=
  match sorted with
  | [] => [p]
  | q :: sorted' =>
      if (orderOrZero p - orderOrZero q <=? 0)%Z then p :: sorted
      else q :: insertPanel p sorted'
  end.

Definition sortPanels (docPanels : list Panel.t) : list Panel.t :=
  foldr insertPanel [] docPanels.

(** [parts.join(sep)] *)
Fixpoint join (sep : jsstring) (parts : list jsstring) : jsstring :=
  match parts with
  | [] => []
  | [x] => x
  | x :: parts' => x ++ sep ++ join sep parts'
  end.

(** [t + ":\n" + c] for one panel. *)
Definition panelBlock (p : Panel.t) : jsstring :=
  orElse (Panel.title p) [] ++ js ":" ++ [10]
  ++ stripHtml (orElse (Panel.original_content p) []).

(** The panel text that [run] builds from [Object.values(docPanels)]. *)
Definition panelTextOf (docPanels : list Panel.t) : jsstring :=
  join [10; 10] (panelBlock <$> sortPanels docPanels).

(** ** The meetings to process *)

(** The [id] of [{ id, ...doc }]. *)
Definition meetingId (entry : jsstring * Document.t) : jsstring :=
  default entry.1 (Document.id entry.2).

(** The falsiness of a property that is missing or the empty string. *)
Definition truthyOpt (v : option jsstring) : bool :=
  match v with
  | Some s => truthy s
  | None => false
  end.

(** The three filters of [run] over [Object.entries(docs)], before the
    sort by creation time: not deleted, not processed before, with at
    least one panel. *)
Definition hasPanels (panels : gmap jsstring (list Panel.t))
    (m : jsstring * Document.t) : bool :=
  match panels !! meetingId m with
  | Some ps => (0 <? length ps)%nat
  | None => false
  end.

Definition newMeetings (docs : list (jsstring * Document.t))
    (panels : gmap jsstring (list Panel.t)) (processedSet : gset jsstring)
  : list (jsstring * Document.t) :=
  filter (fun m => hasPanels panels m = true)
    (filter (fun m => meetingId m ∉ processedSet)
       (filter (fun m => truthyOpt (Document.deleted_at m.2) = false) docs)).

(** [processedSet] after the loop of [run] over the new meetings. *)
Definition markProcessed (processedSet : gset jsstring)
    (meetings : list (jsstring * Document.t)) : gset jsstring :=
  foldl (fun acc m => {[meetingId m]} ∪ acc) processedSet meetings.

(** ** Vocabulary of the further properties *)

(** A line that can yield a candidate: not blank and not a header. *)
Definition contentLine (raw : jsstring) : bool :=
  truthy (trim raw) && negb (matchesSome sectionPatterns (trim raw)).

(** Phrases that make a line a header when the line starts with one of
    them, in any letter case. *)
Definition headerPhrases : list jsstring := [
  js "next steps"; js "nextsteps"; js "action items"; js "actionitems";
  js "follow up"; js "follow-up"; js "followup";
  js "to do"; js "to-do"; js "todo";
  js "task:"; js "tasks:"; js "deliverables"
].

(** Every white-space character is a single space, with no white space
    after it. *)
Fixpoint singleSpaced (s : jsstring) : Prop :=
  match s with
  | [] => True
  | c :: t =>
      (isSpace c = true ->
       c = 32 /\ match t with [] => True | d :: _ => isSpace d = false end)
      /\ singleSpaced t
  end.

(** The item that [run] pushes in iteration [j] of the loop over the
    extracted items, when the first new identifier is [first] and the loop
    starts at clock reading [k]. *)
Definition newItemAt (title meetingDate : jsstring) (clock : nat -> jsstring)
    (k : nat) (first : Z) (j : nat) (ai : Item) : ActionItem.t :=
  ActionItem.mk (Some (first + Z.of_nat j)%Z) (item ai) (owner ai) None
    (js "open") title meetingDate (clock (k + j)%nat) None [].

(** The key under which the meeting log holds at most one entry. *)
Definition logKey (m : MeetingLog.t) : jsstring * jsstring :=
  (MeetingLog.title m, MeetingLog.date m).

(** The lines of the panel text of panels in their sorted order: for each
    panel its title with a colon and its stripped content, with one empty
    line between two panels. *)
Fixpoint panelLines (sorted : list Panel.t) : list jsstring :=
  match sorted with
  | [] => [[]]
  | p :: sorted' =>
      (orElse (Panel.title p) [] ++ js ":")
      :: stripHtml (orElse (Panel.original_content p) [])
      :: match sorted' with
         | [] => []
         | _ :: _ => [] :: panelLines sorted'
         end
  end.

(** * Properties *)

(** ** Strings *)

Lemma dropWhile_suffix p s :
  exists pre, s = pre ++ dropWhile p s /\ forallb p pre = true.
Proof.
  induction s as [|c t IH]; simpl.
  - exists []. done.
  - destruct (p c) eqn:Hc.
    + destruct IH as (pre & E & F). exists (c :: pre). simpl.
      rewrite Hc, F. split; [congruence | done].
    + exists []. done.
Qed.

Lemma dropWhile_head p s c t : dropWhile p s = c :: t -> p c = false.
Proof.
  induction s as [|a s IH]; simpl; [done|].
  destruct (p a) eqn:Ha; [done|]. intros [= <- <-]. done.
Qed.

Lemma dropWhile_id p c t : p c = false -> dropWhile p (c :: t) = c :: t.
Proof. intros H. simpl. by rewrite H. Qed.

Lemma dropWhile_elem p s x : x ∈ dropWhile p s -> x ∈ s.
Proof.
  destruct (dropWhile_suffix p s) as (pre & E & _).
  intros H. rewrite E. apply elem_of_app. by right.
Qed.

Lemma trim_elem s x : x ∈ trim s -> x ∈ s.
Proof.
  unfold trim. rewrite elem_of_reverse. intros H%dropWhile_elem.
  rewrite elem_of_reverse in H. by apply dropWhile_elem in H.
Qed.

Lemma trim_head s c t : trim s = c :: t -> isSpace c = false.
Proof.
  unfold trim. intros H.
  destruct (dropWhile_suffix isSpace (reverse (dropWhile isSpace s)))
    as (pre & E & F).
  apply (f_equal reverse) in E.
  rewrite reverse_involutive, reverse_app, H in E.
  destruct (dropWhile isSpace s) as [|a s'] eqn:D; [done|].
  simpl in E. injection E as -> _.
  by apply dropWhile_head in D.
Qed.

Lemma trim_last s c t : trim s = t ++ [c] -> isSpace c = false.
Proof.
  unfold trim. intros H. apply (f_equal reverse) in H.
  rewrite reverse_involutive, reverse_app in H. simpl in H.
  by apply dropWhile_head in H.
Qed.

Lemma trimmed_intro s :
  (forall c t, s = c :: t -> isSpace c = false) ->
  (forall c t, s = t ++ [c] -> isSpace c = false) ->
  trimmed s.
Proof.
  intros Hh Hl. unfold trimmed, trim.
  destruct s as [|c t]; [done|].
  rewrite dropWhile_id by eauto.
  destruct (reverse (c :: t)) as [|a r] eqn:R.
  - apply (f_equal reverse) in R. by rewrite reverse_involutive in R.
  - assert (c :: t = reverse r ++ [a]) as E.
    { apply (f_equal reverse) in R.
      by rewrite reverse_involutive, reverse_cons in R. }
    rewrite dropWhile_id by eauto. rewrite reverse_cons. by rewrite <- E.
Qed.

Lemma trim_trimmed s : trimmed (trim s).
Proof.
  apply trimmed_intro; intros c t E;
    [by eapply trim_head | by eapply trim_last].
Qed.

Lemma split_nonempty sep s : split sep s <> [].
Proof.
  destruct s as [|c t]; simpl; [done|].
  destruct (c =? sep); [done|]. by destruct (split sep t).
Qed.

Lemma split_firstToken name : split 32 name !! 0%nat = Some (firstToken name).
Proof.
  induction name as [|c t IH]; simpl; [done|].
  destruct (c =? 32); [done|].
  destruct (split 32 t) as [|w ws]; simpl in *; [done|]. congruence.
Qed.

Lemma split_elem sep s l x :
  l ∈ split sep s -> x ∈ l -> x ∈ s /\ x <> sep.
Proof.
  revert l. induction s as [|c t IH]; simpl; intros l Hl Hx.
  - apply list_elem_of_singleton in Hl as ->. by apply elem_of_nil in Hx.
  - destruct (c =? sep) eqn:Hc.
    + apply elem_of_cons in Hl as [-> | Hl]; [by apply elem_of_nil in Hx|].
      destruct (IH _ Hl Hx). split; [by right | done].
    + apply N.eqb_neq in Hc.
      destruct (split sep t) as [|w ws] eqn:E.
      * apply list_elem_of_singleton in Hl as ->.
        apply list_elem_of_singleton in Hx as ->. split; [by left | done].
      * apply elem_of_cons in Hl as [-> | Hl].
        -- apply elem_of_cons in Hx as [-> | Hx]; [split; [by left | done]|].
           destruct (IH w) as [? ?]; [by left | done |].
           split; [by right | done].
        -- destruct (IH l) as [? ?]; [by right | done |].
           split; [by right | done].
Qed.

(** ** The matcher *)

Lemma tryDown_sound n lo st k e :
  (lo <= n)%nat -> tryDown n lo st k = Some e ->
  exists m, (lo <= m <= n)%nat /\ k (advance m st) = Some e.
Proof.
  induction n as [|n IH]; simpl; intros Hlo H.
  - destruct (k (advance 0 st)) eqn:K; [|done].
    exists 0%nat. split; [lia | congruence].
  - destruct (k (advance (S n) st)) eqn:K.
    + exists (S n). split; [lia | congruence].
    + destruct (lo <=? n)%nat eqn:L; [|done].
      apply Nat.leb_le in L. destruct (IH L H) as (m & ? & ?).
      exists m. split; [lia | done].
Qed.

(** The longest run is tried first. *)
Lemma tryDown_first n lo st k e :
  k (advance n st) = Some e -> tryDown n lo st k = Some e.
Proof. intros H. destruct n; simpl; by rewrite H. Qed.

Lemma matcher_sound ic r : forall st k e,
  matcher ic r st k = Some e ->
  exists st', matches ic r st st' /\ k st' = Some e.
Proof.
  induction r as [|l|p|r1 IH1 r2 IH2|r1 IH1 r2 IH2|r1 IH1|p lo hi|r1 IH1];
    simpl; intros st k e H.
  - destruct (endIndex st =? 0)%nat eqn:E; [|done].
    apply Nat.eqb_eq in E. exists st. split; [by constructor | done].
  - destruct (litPrefix ic l (remaining st)) eqn:E; [|done].
    eexists. split; [by constructor | done].
  - destruct (remaining st) as [|c t] eqn:E; [done|].
    destruct (p c) eqn:P; [|done].
    eexists. split; [by econstructor | done].
  - apply IH1 in H as (st1 & M1 & H). apply IH2 in H as (st2 & M2 & H).
    exists st2. split; [by econstructor | done].
  - destruct (matcher ic r1 st k) eqn:E1.
    + injection H as ->. apply IH1 in E1 as (st1 & M1 & K).
      exists st1. split; [by apply M_AltL | done].
    + apply IH2 in H as (st2 & M2 & K).
      exists st2. split; [by apply M_AltR | done].
  - destruct (matcher ic r1 st k) eqn:E1.
    + injection H as ->. apply IH1 in E1 as (st1 & M1 & K).
      exists st1. split; [by apply M_OptSome | done].
    + exists st. split; [by apply M_OptNone | done].
  - destruct (lo <=? _)%nat eqn:L; [|done]. apply Nat.leb_le in L.
    apply tryDown_sound in H as (m & Hm & K); [|done].
    exists (advance m st). split; [constructor; lia | done].
  - apply IH1 in H as (st1 & M1 & K). eexists. split; [by constructor | done].
Qed.

Lemma matcher_seq ic r1 r2 st k e :
  matcher ic (Seq r1 r2) st k = Some e ->
  exists st1, matches ic r1 st st1 /\ matcher ic r2 st1 k = Some e.
Proof. simpl. apply matcher_sound. Qed.

Lemma litPrefix_length ic l s :
  litPrefix ic l s = true -> (length l <= length s)%nat.
Proof.
  revert s. induction l as [|a l IH]; intros [|c s]; simpl; try done; [lia|].
  intros [_ H]%andb_true_iff. apply IH in H. lia.
Qed.

Lemma runLength_le p s : (runLength p s <= length s)%nat.
Proof. induction s as [|c t IH]; simpl; [lia|]. destruct (p c); lia. Qed.

Lemma capRun_le hi n : (capRun hi n <= n)%nat.
Proof. destruct hi; simpl; lia. Qed.

Lemma runLength_stop p s c :
  s !! runLength p s = Some c -> p c = false.
Proof.
  induction s as [|a t IH]; simpl; [done|].
  destruct (p a) eqn:Pa; simpl; [done|]. by intros [= <-].
Qed.

(** What a pattern consumes: at least [minLen] characters, all of them
    from the input that remains. *)
Lemma matches_consumed ic r a b :
  matches ic r a b ->
  exists n, (minLen r <= n <= length (remaining a))%nat
            /\ endIndex b = (endIndex a + n)%nat
            /\ remaining b = drop n (remaining a).
Proof.
  induction 1 as [st E|l st E|p c t st E P|r1 r2 a b c _ IH1 _ IH2
                 |r1 r2 a b _ IH|r1 r2 a b _ IH|r a b _ IH|r a
                 |p lo hi n st L U|r a b _ IH]; simpl.
  - exists 0%nat. rewrite drop_0. split; [lia | split; [lia | done]].
  - exists (length l). apply litPrefix_length in E. split; [lia | done].
  - exists 1%nat. rewrite E. simpl. split; [lia | done].
  - destruct IH1 as (n1 & ? & E1 & R1). destruct IH2 as (n2 & ? & E2 & R2).
    rewrite R1, length_drop in *. exists (n1 + n2)%nat.
    split; [lia|]. split; [lia|]. by rewrite R2, drop_drop.
  - destruct IH as (n & ? & ? & ?). exists n. split; [lia | done].
  - destruct IH as (n & ? & ? & ?). exists n. split; [lia | done].
  - destruct IH as (n & ? & ? & ?). exists n. split; [lia | done].
  - exists 0%nat. rewrite drop_0. split; [lia | split; [lia | done]].
  - exists n. pose proof (capRun_le hi (runLength p (remaining st))).
    pose proof (runLength_le p (remaining st)). split; [lia | done].
  - destruct IH as (n & ? & ? & ?). exists n. split; [lia | done].
Qed.

Lemma matches_noGroup ic r a b :
  noGroup r = true -> matches ic r a b -> capture1 b = capture1 a.
Proof.
  intros G M. induction M; simpl in *; try done.
  - apply andb_true_iff in G as [G1 G2]. rewrite IHM2, IHM1; done.
  - apply andb_true_iff in G as [G1 G2]. auto.
  - apply andb_true_iff in G as [G1 G2]. auto.
  - auto.
Qed.

Lemma search_anchored ic r i s :
  search (mkRegExp (Seq Bol r) ic) (S i) s = None.
Proof.
  revert i. induction s as [|c t IH]; intros i; simpl; [done | apply IH].
Qed.

(** A pattern that starts with [^] matches at index 0 or not at all. *)
Lemma exec_anchored ic r s :
  exec (mkRegExp (Seq Bol r) ic) s =
  match matcher ic r (mkMS 0 s None) Some with
  | Some e => Some (mkMatch 0 (take (endIndex e) s) (capture1 e))
  | None => None
  end.
Proof.
  unfold exec. destruct s as [|c t]; simpl.
  - destruct (matcher ic r _ Some); [|done]. by rewrite Nat.sub_0_r.
  - destruct (matcher ic r _ Some); [by rewrite Nat.sub_0_r|].
    apply search_anchored.
Qed.

Lemma search_sound re i s m :
  search re i s = Some m ->
  exists pre suf e,
    s = pre ++ suf /\ index m = (i + length pre)%nat
    /\ matcher (ignoreCase re) (source re) (mkMS (index m) suf None) Some
       = Some e
    /\ m0 m = take (endIndex e - index m) suf /\ m1 m = capture1 e.
Proof.
  revert i. induction s as [|c t IH]; intros i; simpl.
  - destruct (matcher _ _ _ Some) as [e|] eqn:E; [|done].
    intros [= <-]. exists [], [], e. simpl. rewrite Nat.add_0_r. done.
  - destruct (matcher _ _ _ Some) as [e|] eqn:E.
    + intros [= <-]. exists [], (c :: t), e. simpl. rewrite Nat.add_0_r. done.
    + intros H. apply IH in H as (pre & suf & e & -> & I & ? & ? & ?).
      exists (c :: pre), suf, e. simpl. split; [done|]. split; [lia | done].
Qed.

Lemma exec_nil_minLen re : (0 < minLen (source re))%nat -> exec re [] = None.
Proof.
  intros H. unfold exec. simpl.
  destruct (matcher _ _ _ Some) as [e|] eqn:E; [|done].
  apply matcher_sound in E as (st' & M & _).
  apply matches_consumed in M as (n & ? & _). simpl in *. lia.
Qed.

Lemma drop_runLength p s : drop (runLength p s) s = dropWhile p s.
Proof. induction s as [|c t IH]; simpl; [done|]. by destruct (p c). Qed.

(** The capture of a pattern [^(\w+(?:\s\w+)?)...]: a non-empty prefix of
    the input. *)
Lemma leading_capture ic rest s m :
  noGroup rest = true ->
  exec (mkRegExp (Seq Bol (Seq leadingWords rest)) ic) s = Some m ->
  index m = 0%nat /\
  exists name t, m1 m = Some name /\ name <> [] /\ s = name ++ t.
Proof.
  intros G. rewrite exec_anchored.
  destruct (matcher _ _ _ Some) as [e|] eqn:E; [|done].
  intros [= <-]. simpl. split; [done|].
  apply matcher_seq in E as (st1 & M1 & E).
  apply matcher_sound in E as (st2 & M2 & [= <-]).
  rewrite (matches_noGroup _ _ _ _ G M2).
  inversion M1 as [| | | | | | | | |r a b M]; subst. simpl.
  apply matches_consumed in M as (n & Hn & En & _). simpl in *.
  rewrite En, Nat.sub_0_r.
  exists (take n s), (drop n s). split; [done|].
  split; [|by rewrite take_drop].
  destruct s; simpl in *; [lia|]. destruct n; [lia | done].
Qed.

Lemma ownerPattern_capture s m :
  exec ownerPattern s = Some m ->
  index m = 0%nat /\
  exists name t, m1 m = Some name /\ name <> [] /\ s = name ++ t.
Proof. apply leading_capture. done. Qed.

Lemma ownerNamePattern_capture s m :
  exec ownerNamePattern s = Some m ->
  index m = 0%nat /\
  exists name t, m1 m = Some name /\ name <> [] /\ s = name ++ t.
Proof. apply leading_capture. done. Qed.

(** [line.replace(/^[-*•]\s*/, "")]: one leading marker and the white space
    after it are removed. *)
Lemma replaceEmpty_bullet c t :
  replaceEmpty bulletPattern (c :: t) =
  if isBullet c then dropWhile isSpace t else c :: t.
Proof.
  unfold replaceEmpty, bulletPattern, star. cbn [cat]. rewrite exec_anchored.
  cbn [matcher remaining]. destruct (isBullet c); [|done].
  cbn [capRun remaining advance drop Nat.leb].
  rewrite (tryDown_first _ _ _ _ _ eq_refl).
  cbn [index m0 endIndex advance]. rewrite drop_0, length_take.
  pose proof (runLength_le isSpace t).
  replace ((0 + 1 + runLength isSpace t) `min` length (c :: t))%nat
    with (S (runLength isSpace t)) by (simpl; lia).
  simpl. apply drop_runLength.
Qed.

Ltac cases_cmp :=
  repeat match goal with
    | |- context [N.eqb ?a ?b] => destruct (N.eqb_spec a b); try lia
    | |- context [N.leb ?a ?b] => destruct (N.leb_spec a b); try lia
    end; simpl; try done.

Lemma isSpace_printable c : 33 <= c <= 159 -> isSpace c = false.
Proof.
  intros H. unfold isSpace, isWhiteSpace, isLineTerminator. cases_cmp.
Qed.

Lemma upperAscii_letter c k :
  upperAscii c = k -> 65 <= k <= 90 -> isSpace c = false.
Proof.
  unfold upperAscii. intros E K. apply isSpace_printable.
  destruct (N.leb_spec 97 c), (N.leb_spec c 122); simpl in E; lia.
Qed.

Lemma litPrefix_head ic a l s :
  litPrefix ic (a :: l) s = true ->
  exists c t, s = c :: t /\ canonicalize ic c = canonicalize ic a.
Proof.
  destruct s as [|c t]; simpl; [done|].
  intros [E _]%andb_true_iff. apply N.eqb_eq in E. eauto.
Qed.

(** A match of a known first name starts on a letter. *)
Lemma knownNames_first a b :
  matches true knownNames a b ->
  exists c t, remaining a = c :: t /\ isSpace c = false.
Proof.
  unfold knownNames. cbn [alts]. intros M.
  repeat match goal with
    | H : matches _ (Alt _ _) _ _ |- _ => inversion H; subst; clear H
    end;
    match goal with
    | H : matches _ (Lit _) _ _ |- _ => inversion H; subst; clear H
    end;
    match goal with
    | H : litPrefix _ _ _ = true |- _ =>
        apply litPrefix_head in H as (c & t & -> & E)
    end;
    exists c, t; (split; [done|]);
    apply (upperAscii_letter _ _ E); vm_compute; split; discriminate.
Qed.

(** A match of the action pattern: it starts on a letter of a known name
    and runs to the end of the line, or to the first line terminator. *)
Lemma actionPattern_match s m :
  exec actionPattern s = Some m ->
  exists pre post c u,
    s = pre ++ m0 m ++ post /\ m0 m = c :: u /\ isSpace c = false
    /\ (forall d post', post = d :: post' -> isLineTerminator d = true).
Proof.
  intros H. apply search_sound in H as (pre & suf & e & -> & I & E & M0 & _).
  unfold actionPattern in E. cbn [cat source ignoreCase] in E.
  apply matcher_seq in E as (st1 & M1 & E).
  apply matcher_seq in E as (st2 & M2 & E).
  apply matcher_seq in E as (st3 & M3 & E).
  apply matcher_seq in E as (st4 & M4 & E).
  destruct (knownNames_first _ _ M1) as (c & t & R & C). simpl in R. subst suf.
  apply matches_consumed in M1 as (n1 & L1 & E1 & R1).
  apply matches_consumed in M2 as (n2 & L2 & E2 & R2).
  apply matches_consumed in M3 as (n3 & L3 & E3 & R3).
  apply matches_consumed in M4 as (n4 & L4 & E4 & R4).
  rewrite R1 in *. rewrite R2 in *. rewrite R3 in *. rewrite !drop_drop in *.
  rewrite !length_drop in *. cbn [endIndex remaining] in *.
  unfold plus in E. cbn [matcher capRun] in E.
  destruct (1 <=? _)%nat eqn:L5 in E; [|done]. apply Nat.leb_le in L5.
  erewrite tryDown_first in E by reflexivity. injection E as <-.
  cbn [endIndex remaining advance] in *.
  rewrite R4 in *.
  remember (n1 + (n2 + (n3 + n4)))%nat as k eqn:Hk.
  remember (runLength isDot (drop k (c :: t))) as n5 eqn:Hn5.
  pose proof (runLength_le isDot (drop k (c :: t))) as L6.
  rewrite <- Hn5, length_drop in L6. simpl in L1, L2, L3, L4, L6.
  replace (endIndex st4 + n5 - index m)%nat with (k + n5)%nat in M0 by lia.
  exists pre, (drop (k + n5) (c :: t)), c, (take (k + n5 - 1) t).
  split; [by rewrite M0, take_drop|]. split.
  { rewrite M0. destruct (k + n5)%nat eqn:K; [lia|]. simpl.
    by rewrite Nat.sub_0_r. }
  split; [done|]. intros d post' P.
  assert (drop k (c :: t) !! n5 = Some d) as D.
  { rewrite lookup_drop. rewrite <- (Nat.add_0_r (k + n5)).
    rewrite <- lookup_drop, P. done. }
  rewrite Hn5 in D. apply runLength_stop in D. unfold isDot in D.
  by destruct (isLineTerminator d).
Qed.

(** ** The scan *)

#[global] Arguments matchesSome : simpl never.
#[global] Arguments exec : simpl never.
#[global] Arguments trim : simpl never.
#[global] Arguments replaceEmpty : simpl never.
#[global] Arguments standalone : simpl never.
#[global] Arguments standaloneItems : simpl never.

Lemma test_false re s : test re s = false <-> exec re s = None.
Proof. unfold test. destruct (exec re s); split; done. Qed.

Lemma standalone_eq line st :
  standalone line st =
  match exec actionPattern line with
  | Some m =>
      push st (mkItem (m0 m)
                 (match exec ownerNamePattern line with
                  | Some o => m1 o
                  | None => Some defaultOwner
                  end))
  | None => st
  end.
Proof. reflexivity. Qed.

Lemma standalone_items line st :
  standalone line st =
  mkLoop (inActionSection st) (currentOwner st)
         (items st ++ standaloneItems line).
Proof.
  unfold standaloneItems. rewrite !standalone_eq.
  destruct (exec actionPattern line); simpl.
  - done.
  - destruct st. simpl. by rewrite app_nil_r.
Qed.

Lemma standaloneItems_none line :
  matchesSome actionPatterns line = false -> standaloneItems line = [].
Proof.
  unfold matchesSome. simpl. rewrite orb_false_r. intros H%test_false.
  unfold standaloneItems. rewrite standalone_eq. by rewrite H.
Qed.

Section Scan.

Variable toLowerCase : jsstring -> jsstring.

Lemma detectOwner_find line attendees :
  detectOwner toLowerCase line attendees =
  Normal (default defaultOwner
            (find (attendeeMatches toLowerCase line) attendees)).
Proof.
  induction attendees as [|name l IH]; simpl; [done|].
  rewrite split_firstToken. unfold attendeeMatches at 1.
  destruct (_ || _ || _); [done | apply IH].
Qed.

Lemma loopBody_eq attendees raw st :
  loopBody toLowerCase attendees raw st =
  Normal (if truthy (trim raw)
          then bodyResult toLowerCase attendees (trim raw) st
          else st).
Proof.
  unfold loopBody, bodyResult. cbv zeta.
  destruct (truthy (trim raw)); simpl; [|done].
  destruct (matchesSome sectionPatterns (trim raw)); [done|].
  destruct st as [sec co its]. simpl.
  destruct sec; simpl.
  - destruct (matchesSome endPatterns (trim raw)); simpl; [done|].
    destruct (exec ownerPattern (trim raw)) as [om|]; simpl.
    + by destruct (truthy _); rewrite ?app_nil_r.
    + destruct (10 <? length (trim raw))%nat; simpl; [|done].
      by rewrite detectOwner_find.
  - rewrite andb_false_r.
    assert (forall o : option MatchResult,
      match o with Some _ | _ => Normal (mkLoop false co its) end
      = Normal (mkLoop false co its)) as E by (by intros []).
    destruct (exec ownerPattern (trim raw));
      simpl; by rewrite standalone_items.
Qed.

Lemma scan_total attendees lines st :
  exists st', scan toLowerCase attendees lines st = Normal st'.
Proof.
  revert st. induction lines as [|raw l IH]; intros st; simpl; [eauto|].
  rewrite loopBody_eq. simpl. apply IH.
Qed.

Lemma forLines_scan attendees lines budget : forall i st,
  (length lines - i <= budget)%nat ->
  forLines toLowerCase attendees lines budget i st =
  scan toLowerCase attendees (drop i lines) st.
Proof.
  induction budget as [|b IH]; intros i st Hb; simpl.
  - destruct (Nat.ltb_spec i (length lines)); [lia|].
    by rewrite drop_ge by lia.
  - destruct (Nat.ltb_spec i (length lines)) as [Hi|Hi].
    + destruct (lookup_lt_is_Some_2 lines i Hi) as [raw E].
      rewrite E, (drop_S _ _ _ E). simpl.
      rewrite loopBody_eq. simpl. apply IH. lia.
    + by rewrite drop_ge by lia.
Qed.

Lemma extractActionItems_scan panelText meetingTitle meetingDate attendees :
  extractActionItems toLowerCase panelText meetingTitle meetingDate attendees
  = st ← scan toLowerCase attendees (split 10 panelText) initialState;
    Normal (filterSeen toLowerCase ∅ (items st)).
Proof.
  unfold extractActionItems. rewrite forLines_scan by lia. by rewrite drop_0.
Qed.

End Scan.

Section Properties.

Variable toLowerCase : jsstring -> jsstring.

(** Outside a section, and as long as no header line comes, the scan stays
    outside, keeps the carried owner, and the only candidates are those of
    the standalone rule. *)
Lemma scan_outside attendees lines : forall st,
  inActionSection st = false ->
  Forall (fun raw => matchesSome sectionPatterns (trim raw) = false) lines ->
  scan toLowerCase attendees lines st =
  Normal (mkLoop false (currentOwner st)
            (items st
             ++ flat_map (fun raw => standaloneItems (trim raw)) lines)).
Proof.
  induction lines as [|raw l IH]; intros st Hs Hl; simpl.
  - rewrite app_nil_r. destruct st; simpl in *; by subst.
  - apply Forall_cons in Hl as [Hh Hl]. rewrite loopBody_eq. simpl.
    destruct (trim raw) as [|c t] eqn:T; simpl.
    + rewrite (IH st Hs Hl). done.
    + unfold bodyResult. rewrite Hh, Hs.
      rewrite IH by done. simpl. by rewrite <- app_assoc.
Qed.

(** C1. A panel text with no line that matches a header pattern and no
    line that matches the name-plus-modal pattern yields the empty list,
    for every attendee list. The lines are taken trimmed, as the scan
    sees them. *)
Theorem no_header_no_action_sentence_empty
    panelText meetingTitle meetingDate attendees :
  Forall (fun raw => matchesSome sectionPatterns (trim raw) = false
                     /\ matchesSome actionPatterns (trim raw) = false)
         (split 10 panelText) ->
  extractActionItems toLowerCase panelText meetingTitle meetingDate attendees
  = Normal [].
Proof.
  intros H. rewrite extractActionItems_scan.
  rewrite scan_outside; [|done|].
  - simpl. replace (flat_map _ _) with (@nil Item); [done|].
    induction H as [|raw l [_ Ha] _ IH]; simpl; [done|].
    by rewrite (standaloneItems_none _ Ha).
  - eapply Forall_impl; [exact H|]. by intros raw [? _].
Qed.

(** *** The deduplication pass *)

Lemma filterSeen_elem seen its y :
  y ∈ filterSeen toLowerCase seen its ->
  y ∈ its /\ dedupKey toLowerCase y ∉ seen.
Proof.
  revert seen. induction its as [|x l IH]; intros seen; simpl.
  - by intros ?%elem_of_nil.
  - destruct (decide (dedupKey toLowerCase x ∈ seen)) as [Hin|Hin].
    + intros Hy. destruct (IH _ Hy) as [? ?]. split; [by right | done].
    + intros [-> | Hy]%elem_of_cons; [split; [by left | done]|].
      destruct (IH _ Hy) as [? Hn]. split; [by right|].
      intros Hc. apply Hn, elem_of_union. by right.
Qed.

Lemma filterSeen_sublist seen its :
  filterSeen toLowerCase seen its `sublist_of` its.
Proof.
  revert seen. induction its as [|x l IH]; intros seen; simpl; [done|].
  destruct (decide (dedupKey toLowerCase x ∈ seen)).
  - by apply sublist_cons.
  - by apply sublist_skip.
Qed.






(** C6. The output is a function of the panel text and the attendee list
    alone. Every invocation starts its scan from the initial state and its
    deduplication from the empty set, so that two invocations on the same
    panel text and attendees return the same ordered list, whatever the
    other arguments are. *)
Theorem extraction_deterministic panelText attendees title1 date1 title2 date2 :
  exists st out,
    scan toLowerCase attendees (split 10 panelText) initialState = Normal st
    /\ out = filterSeen toLowerCase ∅ (items st)
    /\ extractActionItems toLowerCase panelText title1 date1 attendees
       = Normal out
    /\ extractActionItems toLowerCase panelText title2 date2 attendees
       = Normal out.
Proof.
  rewrite !extractActionItems_scan.
  destruct (scan_total toLowerCase attendees (split 10 panelText) initialState)
    as [st E].
  exists st, (filterSeen toLowerCase ∅ (items st)). rewrite E. done.
Qed.

(** C7. The extraction never throws and never runs out of its iteration
    budget: it returns a list for every panel text and attendee list, and
    the empty list for the empty text. *)
Theorem extraction_total panelText meetingTitle meetingDate attendees :
  (exists out,
     extractActionItems toLowerCase panelText meetingTitle meetingDate
       attendees = Normal out)
  /\ extractActionItems toLowerCase [] meetingTitle meetingDate attendees
     = Normal [].
Proof.
  split; [|done].
  rewrite extractActionItems_scan.
  destruct (scan_total toLowerCase attendees (split 10 panelText) initialState)
    as [st ->].
  simpl. eauto.
Qed.

(** *** Headings *)

Lemma isSpace_not_hash w : isSpace w = true -> isHash w = false.
Proof.
  unfold isHash. destruct (N.eqb_spec w 35) as [->|]; [|done].
  by vm_compute.
Qed.

Lemma sectionPatterns_hash t : matchesSome sectionPatterns (35 :: t) = false.
Proof.
  unfold matchesSome, sectionPatterns. cbn [existsb cat]. unfold test.
  rewrite !exec_anchored. reflexivity.
Qed.

Lemma headingPattern_test k w rest :
  (1 <= k <= 3)%nat -> isSpace w = true ->
  test headingPattern (replicate k 35 ++ w :: rest) = true.
Proof.
  intros Hk Hw. pose proof (isSpace_not_hash w Hw) as Hh.
  unfold test, headingPattern. cbn [cat]. rewrite exec_anchored.
  destruct k as [|[|[|[|k]]]]; try lia; simpl; rewrite Hh; simpl;
    by rewrite Hw.
Qed.

(** C8. Inside a section, a markdown heading line (one to three [#]
    followed by white space) closes the section and is consumed without a
    candidate; of the lines after it, up to the next header line, none is
    extracted by the in-section rules: the candidates added are those of
    the standalone rule alone. *)
Theorem heading_closes_section attendees raw k w rest st lines :
  inActionSection st = true ->
  (1 <= k <= 3)%nat -> isSpace w = true ->
  trim raw = replicate k 35 ++ w :: rest ->
  Forall (fun r => matchesSome sectionPatterns (trim r) = false) lines ->
  loopBody toLowerCase attendees raw st
  = Normal (mkLoop false (currentOwner st) (items st))
  /\ scan toLowerCase attendees (raw :: lines) st
     = Normal (mkLoop false (currentOwner st)
                 (items st
                  ++ flat_map (fun r => standaloneItems (trim r)) lines)).
Proof.
  intros Hs Hk Hw Ht Hl.
  assert (loopBody toLowerCase attendees raw st
          = Normal (mkLoop false (currentOwner st) (items st))) as E.
  { rewrite loopBody_eq, Ht. unfold bodyResult.
    destruct k as [|k]; [lia|]. cbn [replicate app truthy].
    rewrite sectionPatterns_hash, Hs.
    change (35 :: replicate k 35 ++ w :: rest)
      with (replicate (S k) 35 ++ w :: rest).
    unfold matchesSome, endPatterns. cbn [existsb].
    by rewrite (headingPattern_test (S k) w rest Hk Hw), orb_true_r. }
  split; [done|]. cbn [scan]. rewrite E. simpl.
  by rewrite scan_outside.
Qed.

(** *** Owners *)

Lemma find_first_match {A} (f : A -> bool) pre x post :
  Forall (fun y => f y = false) pre -> f x = true ->
  find f (pre ++ x :: post) = Some x.
Proof.
  induction 1 as [|y l Hy _ IH]; intros Hx; simpl.
  - by rewrite Hx.
  - rewrite Hy. by apply IH.
Qed.

Lemma find_no_match {A} (f : A -> bool) l :
  Forall (fun y => f y = false) l -> find f l = None.
Proof. induction 1 as [|y l Hy _ IH]; simpl; [done|]. by rewrite Hy. Qed.

(** C9. With the attendees "Jenna Smith" and "Cole Diaz", the section line
    "Jenna will send invites" gets the full name "Jenna Smith" as owner.
    In general the loop over the attendees tests the first token of each
    name, in list order, and stops at the first attendee that matches; the
    default owner is used when none does. *)
Theorem attendee_full_name_first_match :
  (forall s, Forall (fun c => c < 128) s -> toLowerCase s = asciiLowerCase s) ->
  (forall t d,
     extractActionItems toLowerCase
       (js "Next Steps" ++ [10] ++ js "Jenna will send invites") t d
       [js "Jenna Smith"; js "Cole Diaz"]
     = Normal [mkItem (js "Jenna will send invites")
                      (Some (js "Jenna Smith"))])
  /\ (forall name, split 32 name !! 0%nat = Some (firstToken name))
  /\ (forall line pre name post,
        Forall (fun n => attendeeMatches toLowerCase line n = false) pre ->
        attendeeMatches toLowerCase line name = true ->
        detectOwner toLowerCase line (pre ++ name :: post) = Normal name)
  /\ (forall line attendees,
        Forall (fun n => attendeeMatches toLowerCase line n = false)
               attendees ->
        detectOwner toLowerCase line attendees = Normal defaultOwner).
Proof.
  intros Hascii. split; [|split; [apply split_firstToken|split]].
  - intros t d. rewrite extractActionItems_scan.
    change (split 10 _)
      with [js "Next Steps"; js "Jenna will send invites"].
    set (l1 := js "Next Steps"). set (l2 := js "Jenna will send invites").
    set (atts := [js "Jenna Smith"; js "Cole Diaz"]).
    assert (bodyResult toLowerCase atts l1 initialState
            = mkLoop true None []) as E1.
    { unfold bodyResult.
      by replace (matchesSome sectionPatterns l1) with true
        by (by vm_compute). }
    assert (bodyResult toLowerCase atts l2 (mkLoop true None [])
            = mkLoop true None [mkItem l2 (Some (js "Jenna Smith"))]) as E2.
    { unfold bodyResult. cbn [inActionSection currentOwner items].
      replace (matchesSome sectionPatterns l2) with false by (by vm_compute).
      replace (matchesSome endPatterns l2) with false by (by vm_compute).
      replace (exec ownerPattern l2) with (@None MatchResult)
        by (by vm_compute).
      replace (10 <? length l2)%nat with true by (by vm_compute).
      replace (replaceEmpty bulletPattern l2) with l2 by (by vm_compute).
      replace (find _ atts) with (Some (js "Jenna Smith")); [done|].
      unfold atts. cbn [find]. unfold attendeeMatches at 1.
      rewrite !Hascii by (vm_compute; repeat constructor).
      by replace (_ || _ || _) with true by (by vm_compute). }
    cbn [scan]. rewrite !loopBody_eq.
    replace (trim l1) with l1 by (by vm_compute).
    replace (truthy l1) with true by done. rewrite E1.
    cbn [mbind completion_bind]. rewrite loopBody_eq.
    replace (trim l2) with l2 by (by vm_compute).
    replace (truthy l2) with true by done. rewrite E2.
    cbn [mbind completion_bind items filterSeen].
    destruct (decide _) as [Hin|_]; [set_solver | done].
  - intros line pre name post Hpre Hname.
    by rewrite detectOwner_find, (find_first_match _ _ _ _ Hpre Hname).
  - intros line attendees H.
    by rewrite detectOwner_find, (find_no_match _ _ H).
Qed.

(** *** The carried owner *)

Lemma orElse_carried o d : o <> [] -> orElse (Some o) d = o.
Proof. by destruct o. Qed.

Lemma bodyResult_carried attendees line st o :
  currentOwner st = Some o -> o <> [] ->
  matchesSome sectionPatterns line = true \/ exec ownerPattern line = None ->
  currentOwner (bodyResult toLowerCase attendees line st) = Some o
  /\ exists new,
       items (bodyResult toLowerCase attendees line st) = items st ++ new
       /\ Forall (fun it => owner it = Some o \/ it ∈ standaloneItems line)
                 new.
Proof.
  intros Ho Hne Hl. unfold bodyResult.
  destruct (matchesSome sectionPatterns line) eqn:Hh.
  { split; [done|]. exists []. by rewrite app_nil_r. }
  destruct Hl as [?|Hl]; [done|]. rewrite Hl.
  destruct (inActionSection st).
  - destruct (matchesSome endPatterns line).
    { split; [done|]. exists []. by rewrite app_nil_r. }
    destruct (10 <? length line)%nat.
    + split; [done|]. eexists. split; [done|].
      constructor; [|done]. left. simpl. by rewrite Ho, orElse_carried.
    + split; [done|]. exists []. by rewrite app_nil_r.
  - split; [done|]. eexists. split; [done|].
    apply Forall_forall. by right.
Qed.

Lemma scan_carried attendees lines : forall st o,
  currentOwner st = Some o -> o <> [] ->
  Forall (fun raw => matchesSome sectionPatterns (trim raw) = true
                     \/ exec ownerPattern (trim raw) = None) lines ->
  exists st',
    scan toLowerCase attendees lines st = Normal st'
    /\ currentOwner st' = Some o
    /\ exists new,
         items st' = items st ++ new
         /\ Forall (fun it => owner it = Some o
                              \/ exists raw, raw ∈ lines
                                   /\ it ∈ standaloneItems (trim raw)) new.
Proof.
  induction lines as [|raw l IH]; intros st o Ho Hne Hl; simpl.
  - exists st. split; [done|]. split; [done|]. exists [].
    by rewrite app_nil_r.
  - apply Forall_cons in Hl as [Hr Hl]. rewrite loopBody_eq. simpl.
    destruct (truthy (trim raw)).
    + destruct (bodyResult_carried attendees (trim raw) st o Ho Hne Hr)
        as (Ho' & new1 & E1 & F1).
      destruct (IH _ o Ho' Hne Hl) as (st' & E & Ho'' & new2 & E2 & F2).
      exists st'. split; [done|]. split; [done|].
      exists (new1 ++ new2). rewrite E2, E1, app_assoc. split; [done|].
      apply Forall_app. split.
      * eapply Forall_impl; [exact F1|]. intros it [?|?]; [by left|].
        right. exists raw. split; [by left | done].
      * eapply Forall_impl; [exact F2|].
        intros it [?|(r & ? & ?)]; [by left|].
        right. exists r. split; [by right | done].
    + destruct (IH _ o Ho Hne Hl) as (st' & E & Ho'' & new2 & E2 & F2).
      exists st'. split; [done|]. split; [done|].
      exists new2. split; [done|].
      eapply Forall_impl; [exact F2|].
      intros it [?|(r & ? & ?)]; [by left|].
      right. exists r. split; [by right | done].
Qed.

Lemma sectionPatterns_nil : matchesSome sectionPatterns [] = false.
Proof. reflexivity. Qed.

Lemma endPatterns_nil : matchesSome endPatterns [] = false.
Proof. reflexivity. Qed.

Lemma scan_app attendees l1 : forall l2 st,
  scan toLowerCase attendees (l1 ++ l2) st
  = st' ← scan toLowerCase attendees l1 st;
    scan toLowerCase attendees l2 st'.
Proof.
  induction l1 as [|raw l1 IH]; intros l2 st; simpl; [done|].
  rewrite loopBody_eq. simpl. apply IH.
Qed.

(** Inside a section, with a carried owner, over lines that neither close
    the section nor set an owner: the section stays open, the owner stays,
    and every candidate gets the carried owner. *)
Lemma scan_inside_carried attendees o lines : forall st,
  inActionSection st = true -> currentOwner st = Some o -> o <> [] ->
  forallb keepsOwner lines = true ->
  scan toLowerCase attendees lines st
  = Normal (mkLoop true (Some o)
              (items st ++ flat_map (carriedItems o) lines)).
Proof.
  induction lines as [|raw l IH]; intros st Hs Ho Hne Hl; simpl.
  - rewrite app_nil_r. destruct st; simpl in *; by subst.
  - apply andb_true_iff in Hl as [Hr Hl]. rewrite loopBody_eq. simpl.
    unfold keepsOwner in Hr. unfold carriedItems at 1.
    destruct (trim raw) as [|c t] eqn:T.
    { cbn [truthy]. rewrite sectionPatterns_nil. cbn [length Nat.ltb Nat.leb].
      by rewrite IH. }
    cbn [truthy]. unfold bodyResult.
    destruct (matchesSome sectionPatterns (c :: t)) eqn:Hh.
    { rewrite IH by done. done. }
    simpl in Hr. apply andb_true_iff in Hr as [He Hp].
    apply negb_true_iff in He, Hp. apply test_false in Hp.
    rewrite Hs, He, Hp.
    destruct (10 <? length (c :: t))%nat.
    + rewrite IH by done. cbn [items push currentOwner].
      rewrite Ho, orElse_carried by done. by rewrite <- app_assoc.
    + by rewrite IH.
Qed.

(** C10. A section is open and an owner is carried. A terminator line
    closes the section, lines without header follow, a header line opens
    the next section, and the lines of that section neither close it nor
    set an owner. Then the terminator and the header leave the carried
    owner as it is, and the scan ends inside the section with the same
    carried owner. The candidates are pinned: between the sections only
    those of the standalone rule, and in the later section one for every
    line of more than ten characters that is not a header, each with the
    carried owner, whatever the attendee list and whatever name the line
    itself begins with. *)
Theorem carried_owner_survives_sections
    attendees st o term between hdr later :
  inActionSection st = true -> currentOwner st = Some o -> o <> [] ->
  matchesSome sectionPatterns (trim term) = false ->
  matchesSome endPatterns (trim term) = true ->
  Forall (fun raw => matchesSome sectionPatterns (trim raw) = false) between ->
  matchesSome sectionPatterns (trim hdr) = true ->
  forallb keepsOwner later = true ->
  scan toLowerCase attendees (term :: between ++ hdr :: later) st
  = Normal (mkLoop true (Some o)
              (items st
               ++ flat_map (fun raw => standaloneItems (trim raw)) between
               ++ flat_map (carriedItems o) later)).
Proof.
  intros Hs Ho Hne Ht1 Ht2 Hb Hh Hl.
  cbn [scan]. rewrite loopBody_eq. cbn [mbind completion_bind].
  assert (truthy (trim term) = true) as ->.
  { destruct (trim term); [by rewrite endPatterns_nil in Ht2 | done]. }
  unfold bodyResult at 1. rewrite Ht1, Hs, Ht2.
  rewrite scan_app, scan_outside by done.
  cbn [mbind completion_bind scan currentOwner items].
  rewrite loopBody_eq. cbn [mbind completion_bind].
  assert (truthy (trim hdr) = true) as ->.
  { destruct (trim hdr); [by rewrite sectionPatterns_nil in Hh | done]. }
  unfold bodyResult at 1. rewrite Hh.
  rewrite (scan_inside_carried attendees o) by done.
  cbn [items]. by rewrite <- app_assoc.
Qed.

(** *** The owner-prefix rule and the standalone rule *)

Lemma exec_truthy re line m :
  (0 < minLen (source re))%nat -> exec re line = Some m -> truthy line = true.
Proof.
  intros Hm H. destruct line; [|done]. by rewrite exec_nil_minLen in H.
Qed.

Lemma ownerPattern_truthy line m :
  exec ownerPattern line = Some m -> truthy line = true.
Proof. apply exec_truthy. vm_compute. lia. Qed.

Lemma actionPattern_truthy line m :
  exec actionPattern line = Some m -> truthy line = true.
Proof. apply exec_truthy. vm_compute. lia. Qed.

(** C2, as the code has it. A line that matches the owner-prefix pattern
    and is neither a header nor a terminator line sets the carried owner to
    the captured name only inside a section; the owner then stays for the
    lines that follow until another owner-prefix line, and one candidate
    is emitted exactly when text remains after the colon. Outside a
    section the carried owner is left as it is and the rule emits nothing:
    the line is left to the standalone rule. *)
Theorem owner_prefix_sets_owner_inside_section attendees raw st om lines :
  matchesSome sectionPatterns (trim raw) = false ->
  matchesSome endPatterns (trim raw) && inActionSection st = false ->
  exec ownerPattern (trim raw) = Some om ->
  Forall (fun r => matchesSome sectionPatterns (trim r) = true
                   \/ exec ownerPattern (trim r) = None) lines ->
  exists name,
    m1 om = Some name /\ name <> []
    /\ (inActionSection st = true ->
          loopBody toLowerCase attendees raw st
          = Normal
              (mkLoop true (Some name)
                 (items st ++
                  let rest := trim (sliceFrom (length (m0 om)) (trim raw)) in
                  if truthy rest then [mkItem rest (Some name)] else []))
          /\ exists st',
               scan toLowerCase attendees (raw :: lines) st = Normal st'
               /\ currentOwner st' = Some name)
    /\ (inActionSection st = false ->
          loopBody toLowerCase attendees raw st
          = Normal (mkLoop false (currentOwner st)
                      (items st ++ standaloneItems (trim raw)))).
Proof.
  intros Hh He Hm Hl.
  destruct (ownerPattern_capture _ _ Hm) as (_ & name & t & Hn & Hne & _).
  exists name. split; [done|]. split; [done|].
  pose proof (ownerPattern_truthy _ _ Hm) as Ht.
  split; intros Hs.
  - rewrite Hs, andb_true_r in He.
    assert (loopBody toLowerCase attendees raw st
            = Normal
                (mkLoop true (Some name)
                   (items st ++
                    let rest := trim (sliceFrom (length (m0 om)) (trim raw)) in
                    if truthy rest then [mkItem rest (Some name)] else [])))
      as E.
    { rewrite loopBody_eq, Ht. unfold bodyResult.
      by rewrite Hh, Hs, He, Hm, Hn. }
    split; [done|]. cbn [scan]. rewrite E. cbn [mbind completion_bind].
    edestruct (scan_carried attendees lines) as (st' & -> & Ho & _);
      [| exact Hne | exact Hl | eauto].
    done.
  - rewrite loopBody_eq, Ht. unfold bodyResult. by rewrite Hh, Hs.
Qed.

(** C3, as the code has it. The standalone rule runs only outside a
    section. There, a line that matches the name-plus-modal pattern and is
    not a header line yields exactly one candidate: its text is the match,
    which starts at the known name, and its owner is the leading one or
    two words of the line when these are followed by a modal, and the
    default owner otherwise. Inside a section the line yields at most the
    one candidate of the owner-prefix rule or of the plain-content rule. *)
Theorem standalone_sentence_only_outside_section attendees raw st m :
  matchesSome sectionPatterns (trim raw) = false ->
  exec actionPattern (trim raw) = Some m ->
  let owner' := match exec ownerNamePattern (trim raw) with
                | Some o => m1 o
                | None => Some defaultOwner
                end in
  (exists pre post c u,
     trim raw = pre ++ m0 m ++ post /\ m0 m = c :: u /\ isSpace c = false)
  /\ (exists o, owner' = Some o /\ o <> [])
  /\ (inActionSection st = false ->
        loopBody toLowerCase attendees raw st
        = Normal (push st (mkItem (m0 m) owner')))
  /\ (inActionSection st = true ->
        exists st',
          loopBody toLowerCase attendees raw st = Normal st'
          /\ (items st' = items st
               \/ (exists om,
                     exec ownerPattern (trim raw) = Some om
                     /\ items st'
                        = items st
                          ++ [mkItem (trim (sliceFrom (length (m0 om))
                                             (trim raw))) (m1 om)])
               \/ (exec ownerPattern (trim raw) = None
                   /\ exists o,
                        items st'
                        = items st
                          ++ [mkItem (replaceEmpty bulletPattern (trim raw))
                                (Some o)]))).
Proof.
  intros Hh Hm owner'. pose proof (actionPattern_truthy _ _ Hm) as Ht.
  split.
  { destruct (actionPattern_match _ _ Hm)
      as (pre & post & c & u & ? & ? & ? & _).
    by exists pre, post, c, u. }
  split.
  { subst owner'. destruct (exec ownerNamePattern (trim raw)) as [on|] eqn:E.
    - destruct (ownerNamePattern_capture _ _ E) as (_ & name & t & ? & ? & _).
      by exists name.
    - by exists defaultOwner. }
  split; intros Hs.
  - rewrite loopBody_eq, Ht. unfold bodyResult. rewrite Hh, Hs.
    unfold standaloneItems. rewrite standalone_eq, Hm.
    unfold push. simpl. by rewrite Hs.
  - rewrite loopBody_eq, Ht.
    exists (bodyResult toLowerCase attendees (trim raw) st). split; [done|].
    unfold bodyResult. rewrite Hh, Hs.
    destruct (matchesSome endPatterns (trim raw)); [by left|].
    destruct (exec ownerPattern (trim raw)) as [om|] eqn:E.
    + cbn [items].
      destruct (truthy (trim (sliceFrom (length (m0 om)) (trim raw)))).
      * right. left. by exists om.
      * left. by rewrite app_nil_r.
    + destruct (10 <? length (trim raw))%nat; [|by left].
      right. right. split; [done|]. eexists. done.
Qed.

(** *** The candidates *)

Lemma last_exists {A} (l : list A) : l <> [] -> exists l' x, l = l' ++ [x].
Proof.
  destruct l as [|a l] using rev_ind; [done | eauto].
Qed.

Lemma trimmed_last s t x : trimmed s -> s = t ++ [x] -> isSpace x = false.
Proof. unfold trimmed. intros T E. rewrite <- T in E. by eapply trim_last. Qed.

Lemma forallb_elem (p : N -> bool) l x :
  forallb p l = true -> x ∈ l -> p x = true.
Proof.
  intros H Hx. apply list_elem_of_In in Hx.
  by apply (proj1 (forallb_forall p l) H).
Qed.

(** Stripping the marker of a trimmed line of two characters or more
    leaves a non-empty trimmed text. *)
Lemma strip_marker_trimmed c t :
  trimmed (c :: t) -> t <> [] ->
  dropWhile isSpace t <> [] /\ trimmed (dropWhile isSpace t).
Proof.
  intros T Ht. destruct (last_exists t Ht) as (t' & x & ->).
  assert (isSpace x = false) as Hx.
  { by apply (trimmed_last (c :: t' ++ [x]) (c :: t') x). }
  destruct (dropWhile_suffix isSpace (t' ++ [x])) as (pre & E & F).
  assert (dropWhile isSpace (t' ++ [x]) <> []) as Hne.
  { intros N0. rewrite N0, app_nil_r in E.
    assert (x ∈ pre) as Hin by (rewrite <- E; set_solver).
    pose proof (forallb_elem _ _ _ F Hin). congruence. }
  split; [done|]. apply trimmed_intro.
  - intros a r D. by eapply dropWhile_head.
  - intros a r D. rewrite D in E.
    replace (pre ++ r ++ [a]) with ((pre ++ r) ++ [a]) in E
      by (by rewrite <- app_assoc).
    apply app_inj_tail in E as [_ ->]. done.
Qed.

Lemma trimmed_head s c t : trimmed s -> s = c :: t -> isSpace c = false.
Proof. unfold trimmed. intros T E. rewrite <- T in E. by eapply trim_head. Qed.

(** The match of the standalone rule in a trimmed line is trimmed, unless
    it ends in a white-space character and stops at a line terminator. *)
Lemma actionPattern_trimmed_or_cut line m :
  trimmed line -> exec actionPattern line = Some m ->
  trimmed (m0 m)
  \/ exists pre t x d post,
       m0 m = t ++ [x] /\ isSpace x = true
       /\ line = pre ++ m0 m ++ d :: post /\ isLineTerminator d = true.
Proof.
  intros T H.
  destruct (actionPattern_match _ _ H) as (pre & post & c & u & E & M & C & P).
  assert (m0 m <> []) as Hne by (by rewrite M).
  destruct (last_exists _ Hne) as (t & x & L).
  destruct (isSpace x) eqn:Hx.
  - destruct post as [|d post'].
    + rewrite app_nil_r, L, app_assoc in E.
      by rewrite (trimmed_last _ _ _ T E) in Hx.
    + right. exists pre, t, x, d, post'. repeat split; try done.
      by apply (P d post').
  - left. apply trimmed_intro.
    + intros a r D. rewrite M in D. by injection D as <- _.
    + intros a r D. rewrite D in L. by apply app_inj_tail in L as [_ ->].
Qed.

Lemma find_elem {A} (f : A -> bool) l x : find f l = Some x -> x ∈ l.
Proof.
  induction l as [|a l IH]; simpl; [done|].
  destruct (f a); [intros [= ->]; by left | intros ?; right; auto].
Qed.

Lemma orElse_nonempty co d : d <> [] -> orElse co d <> [].
Proof. intros D. destruct co as [[|a s]|]; done. Qed.

Lemma orElse_empty co d : orElse co d = [] -> d = [].
Proof. destruct co as [[|a s]|]; done. Qed.

Lemma bodyResult_good attendees line st :
  trimmed line -> truthy line = true ->
  exists new,
    items (bodyResult toLowerCase attendees line st) = items st ++ new
    /\ Forall (goodAt toLowerCase attendees line) new.
Proof.
  intros T Ht. unfold bodyResult.
  destruct (matchesSome sectionPatterns line).
  { exists []. by rewrite app_nil_r. }
  destruct (inActionSection st).
  - destruct (matchesSome endPatterns line).
    { exists []. by rewrite app_nil_r. }
    destruct (exec ownerPattern line) as [om|] eqn:Hm.
    + eexists. split; [done|].
      destruct (truthy (trim (sliceFrom (length (m0 om)) line))) eqn:Hr;
        [|done].
      constructor; [|done].
      destruct (ownerPattern_capture _ _ Hm) as (_ & name & t & Hn & Hne & _).
      unfold goodAt. cbn [item owner].
      split; [by destruct (trim _)|].
      split; [intros c u E; by apply (trim_head _ _ _ E)|].
      split; [left; apply trim_trimmed|].
      split; [exists name; split; [done|]; by intros ->|].
      right. left. by exists om.
    + destruct (10 <? length line)%nat eqn:Hlen.
      2: { exists []. by rewrite app_nil_r. }
      eexists. split; [done|]. constructor; [|done].
      apply Nat.ltb_lt in Hlen.
      destruct line as [|c t]; [done|].
      unfold goodAt. cbn [item owner]. rewrite replaceEmpty_bullet.
      assert (t <> []) as Hne by (destruct t; simpl in Hlen; [lia | done]).
      destruct (strip_marker_trimmed c t T Hne) as [S1 S2].
      assert (trimmed (if isBullet c then dropWhile isSpace t else c :: t))
        as Tr by (by destruct (isBullet c)).
      split; [by destruct (isBullet c)|].
      split; [intros a u E; by apply (trimmed_head _ _ _ Tr E)|].
      split; [by left|].
      split.
      * eexists. split; [done|]. intros E%orElse_empty.
        by destruct (find _ attendees) as [[|a n]|].
      * left. by exists c, t.
  - exists (standaloneItems line). split; [done|].
    unfold standaloneItems. rewrite standalone_eq.
    destruct (exec actionPattern line) as [m|] eqn:Hm; [|done].
    constructor; [|done]. unfold goodAt. cbn [item owner].
    destruct (actionPattern_match _ _ Hm) as (_ & _ & c & u & _ & M & C & _).
    split; [by rewrite M|].
    split; [intros a r E; rewrite M in E; by injection E as <- _|].
    split.
    { destruct (actionPattern_trimmed_or_cut line m T Hm)
        as [?|(pre & t & x & d & post & L & Hx & E & D)]; [by left|].
      right. by exists m, pre, t, x, d, post. }
    split.
    + destruct (exec ownerNamePattern line) as [on|] eqn:E.
      * destruct (ownerNamePattern_capture _ _ E)
          as (_ & name & t & ? & ? & _).
        exists name. split; [done|]. by intros ->.
      * exists defaultOwner. split; [done|]. done.
    + right. right. by exists m.
Qed.

Lemma scan_good attendees (P : Item -> Prop) lines : forall st,
  Forall P (items st) ->
  (forall raw it, raw ∈ lines ->
                  goodAt toLowerCase attendees (trim raw) it -> P it) ->
  exists st',
    scan toLowerCase attendees lines st = Normal st'
    /\ Forall P (items st').
Proof.
  induction lines as [|raw l IH]; intros st Hst HP; simpl; [eauto|].
  rewrite loopBody_eq. simpl.
  destruct (truthy (trim raw)) eqn:Ht.
  - destruct (bodyResult_good attendees (trim raw) st (trim_trimmed raw) Ht)
      as (new & E & G).
    apply IH.
    + rewrite E. apply Forall_app. split; [done|].
      eapply Forall_impl; [exact G|]. intros it. apply HP. by left.
    + intros r it Hr. apply HP. by right.
  - apply IH; [done|]. intros r it Hr. apply HP. by right.
Qed.

(** C4, as the code has it. Every item of the output comes from a line of
    the panel text by one of the three rules, and only the plain-content
    rule removes a bullet marker: one leading marker with the white space
    after it; the owner-prefix rule keeps a marker that follows the colon.
    For every panel text and every attendee list the text of the item is
    not empty and does not begin with white space. It is trimmed, with one
    exception: the match of the standalone rule stops, right after a
    white-space character, at a carriage return, line separator or
    paragraph separator inside its line. The owner is a string, and it is
    not empty, with one exception: the attendee loop stops, on the line of
    the item, at an attendee whose name is the empty string. *)
Theorem action_item_invariant panelText meetingTitle meetingDate attendees :
  exists out,
    extractActionItems toLowerCase panelText meetingTitle meetingDate
      attendees = Normal out
    /\ forall it, it ∈ out ->
       exists raw,
         raw ∈ split 10 panelText
         /\ emittedBy (trim raw) it
         /\ item it <> []
         /\ (forall c t, item it = c :: t -> isSpace c = false)
         /\ (trimmed (item it) \/ cutShort (trim raw) it)
         /\ exists o,
              owner it = Some o
              /\ (o = [] ->
                  find (attendeeMatches toLowerCase (trim raw)) attendees
                  = Some []).
Proof.
  rewrite extractActionItems_scan.
  destruct (scan_good attendees
              (fun it => exists raw,
                 raw ∈ split 10 panelText
                 /\ goodAt toLowerCase attendees (trim raw) it)
              (split 10 panelText) initialState)
    as (st' & -> & G).
  - constructor.
  - intros raw it Hr H. by exists raw.
  - cbn [mbind completion_bind]. eexists. split; [done|].
    intros it Hit. apply filterSeen_elem in Hit as [Hit _].
    rewrite Forall_forall in G.
    destruct (G it Hit) as (raw & Hr & G1 & G2 & G3 & G4 & G5).
    by exists raw.
Qed.

End Properties.

(** * Further properties of the extraction *)

Section MoreExtraction.

Variable toLowerCase : jsstring -> jsstring.

Lemma bodyResult_at_most_one attendees line st :
  exists new,
    items (bodyResult toLowerCase attendees line st) = items st ++ new
    /\ (length new <= 1)%nat
    /\ (matchesSome sectionPatterns line = true -> new = []).
Proof.
  assert (forall its : list Item,
            exists new : list Item,
              its = its ++ new /\ (length new <= 1)%nat
              /\ (true = true -> new = [])) as Hnone.
  { intros its. exists []. rewrite app_nil_r. simpl. split; [done|].
    split; [lia | done]. }
  unfold bodyResult.
  destruct (matchesSome sectionPatterns line); [apply Hnone|].
  destruct (inActionSection st).
  - destruct (matchesSome endPatterns line).
    { exists []. rewrite app_nil_r. simpl. split; [done|]. split; [lia|done]. }
    destruct (exec ownerPattern line) as [om|].
    + eexists. split; [done|]. split; [|done].
      destruct (truthy _); simpl; lia.
    + destruct (10 <? length line)%nat.
      * eexists. split; [done|]. simpl. split; [lia | done].
      * exists []. rewrite app_nil_r. simpl. split; [done|].
        split; [lia|done].
  - exists (standaloneItems line). split; [done|]. split; [|done].
    unfold standaloneItems. rewrite standalone_eq.
    destruct (exec actionPattern line); simpl; lia.
Qed.

Lemma scan_at_most_one attendees lines : forall st,
  exists st' new,
    scan toLowerCase attendees lines st = Normal st'
    /\ items st' = items st ++ new
    /\ (length new <= length (List.filter contentLine lines))%nat.
Proof.
  induction lines as [|raw l IH]; intros st; simpl.
  - exists st, []. by rewrite app_nil_r.
  - rewrite loopBody_eq. simpl. unfold contentLine at 1.
    destruct (truthy (trim raw)) eqn:Ht; simpl; [|apply IH].
    destruct (bodyResult_at_most_one attendees (trim raw) st)
      as (new1 & E1 & L1 & H1).
    destruct (IH (bodyResult toLowerCase attendees (trim raw) st))
      as (st' & new2 & E & E2 & L2).
    exists st', (new1 ++ new2). split; [done|].
    rewrite E2, E1, app_assoc. split; [done|]. rewrite length_app.
    destruct (matchesSome sectionPatterns (trim raw)) eqn:Hh; simpl.
    + rewrite (H1 eq_refl). simpl. lia.
    + lia.
Qed.

(** X1. The output holds at most one item for each line that is neither
    blank nor a header line: no line contributes two candidates, and no
    candidate is made of several lines. *)
Theorem at_most_one_item_per_content_line
    panelText meetingTitle meetingDate attendees :
  exists out,
    extractActionItems toLowerCase panelText meetingTitle meetingDate
      attendees = Normal out
    /\ (length out
        <= length (List.filter contentLine (split 10 panelText)))%nat.
Proof.
  rewrite extractActionItems_scan.
  destruct (scan_at_most_one attendees (split 10 panelText) initialState)
    as (st' & new & -> & E & L).
  cbn [mbind completion_bind]. eexists. split; [done|].
  pose proof (sublist_length _ _
                (filterSeen_sublist toLowerCase ∅ (items st'))) as S.
  assert (length (items st') = length new) as L' by (by rewrite E).
  lia.
Qed.

Lemma bodyResult_stays_inside attendees line st :
  inActionSection st = true ->
  matchesSome endPatterns line = false ->
  inActionSection (bodyResult toLowerCase attendees line st) = true.
Proof.
  intros Hs He. unfold bodyResult. rewrite Hs, He.
  destruct (matchesSome sectionPatterns line); [done|].
  destruct (exec ownerPattern line); [done|].
  by destruct (10 <? length line)%nat.
Qed.

(** X2. A section is closed by a terminator line only. From a state
    inside a section, the scan of lines none of which matches a terminator
    pattern ends inside the section, whatever the lines are: blank,
    header, owner-prefix or content lines. *)
Theorem section_stays_open_without_terminator attendees lines st :
  inActionSection st = true ->
  Forall (fun raw => matchesSome endPatterns (trim raw) = false) lines ->
  exists st',
    scan toLowerCase attendees lines st = Normal st'
    /\ inActionSection st' = true.
Proof.
  revert st. induction lines as [|raw l IH]; intros st Hs Hl; simpl.
  - eauto.
  - apply Forall_cons in Hl as [He Hl]. rewrite loopBody_eq. simpl.
    destruct (truthy (trim raw)); [|by apply IH].
    apply IH; [|done]. by apply bodyResult_stays_inside.
Qed.

End MoreExtraction.

(** ** The matcher, continued *)

Lemma tryDown_complete n lo st k m :
  (lo <= m <= n)%nat -> is_Some (k (advance m st)) ->
  is_Some (tryDown n lo st k).
Proof.
  induction n as [|n IH]; simpl; intros Hm K.
  - replace m with 0%nat in K by lia. by destruct (k (advance 0 st)).
  - destruct (k (advance (S n) st)) eqn:E; [done|].
    assert (m <> S n) by (intros ->; rewrite E in K; by destruct K).
    destruct (Nat.leb_spec lo n); [|lia]. apply IH; [lia | done].
Qed.

(** The matcher finds a match whenever the pattern has one that the
    continuation accepts. *)
Lemma matcher_complete ic r a b :
  matches ic r a b ->
  forall k, is_Some (k b) -> is_Some (matcher ic r a k).
Proof.
  induction 1 as [st E|l st E|p c t st E P|r1 r2 a b c _ IH1 _ IH2
                 |r1 r2 a b _ IH|r1 r2 a b _ IH|r a b _ IH|r a
                 |p lo hi n st L U|r a b _ IH]; intros k K; simpl.
  - by rewrite E.
  - by rewrite E.
  - by rewrite E, P.
  - apply IH1, IH2, K.
  - destruct (IH k K) as [e ->]. done.
  - destruct (matcher ic r1 a k); [done|]. by apply IH.
  - destruct (IH k K) as [e ->]. done.
  - by destruct (matcher ic r a k).
  - destruct (Nat.leb_spec lo (capRun hi (runLength p (remaining st))));
      [|lia].
    by apply (tryDown_complete _ _ _ _ n).
  - by apply IH.
Qed.

Lemma test_anchored_complete ic r s b :
  matches ic r (mkMS 0 s None) b -> test (mkRegExp (Seq Bol r) ic) s = true.
Proof.
  intros M. unfold test. rewrite exec_anchored.
  destruct (matcher_complete ic r _ b M Some) as [e ->]; done.
Qed.

Lemma litPrefix_app ic l1 l2 s :
  litPrefix ic (l1 ++ l2) s
  = litPrefix ic l1 s && litPrefix ic l2 (drop (length l1) s).
Proof.
  revert s. induction l1 as [|a l1 IH]; intros s; simpl.
  - by rewrite drop_0.
  - destruct s as [|c s].
    + by destruct (l1 ++ l2).
    + simpl. rewrite IH. by rewrite andb_assoc.
Qed.

Lemma litPrefix_cons ic a l s :
  litPrefix ic (a :: l) s = true ->
  exists c t, s = c :: t /\ canonicalize ic c = canonicalize ic a
              /\ litPrefix ic l t = true.
Proof.
  destruct s as [|c t]; simpl; [done|].
  intros [E H]%andb_true_iff. apply N.eqb_eq in E. eauto.
Qed.

Lemma canonicalize_punctuation c k :
  canonicalize true c = k -> k < 65 -> c = k.
Proof.
  unfold canonicalize, upperAscii. intros E K.
  destruct (N.leb_spec 97 c), (N.leb_spec c 122); simpl in E; lia.
Qed.

Lemma matchesSome_intro patterns re s :
  In re patterns -> test re s = true -> matchesSome patterns s = true.
Proof.
  intros Hin Ht. unfold matchesSome. apply existsb_exists. eauto.
Qed.

Lemma advance_advance n m st : advance m (advance n st) = advance (n + m) st.
Proof.
  unfold advance. simpl. by rewrite drop_drop, Nat.add_assoc.
Qed.

(** /^l1\s*l2/i *)
Lemma test_lit_spaces_lit l1 l2 s n :
  litPrefix true l1 s = true ->
  (n <= runLength isSpace (drop (length l1) s))%nat ->
  litPrefix true l2 (drop n (drop (length l1) s)) = true ->
  test (mkRegExp (cat [Bol; Lit l1; star isSpace; Lit l2]) true) s = true.
Proof.
  intros H1 Hn H2. eapply test_anchored_complete.
  eapply M_Seq; [by apply M_Lit|].
  eapply M_Seq; [apply (M_Rep _ _ _ _ n); simpl; lia|].
  by apply M_Lit.
Qed.

(** /^l1[- ]?rest/i, without the optional separator *)
Lemma test_lit_then l1 rest s b :
  litPrefix true l1 s = true ->
  matches true rest (advance (length l1) (mkMS 0 s None)) b ->
  test (mkRegExp
          (Seq Bol (Seq (Lit l1) (Seq (Opt (Class isHyphenOrSpace)) rest)))
          true) s = true.
Proof.
  intros H1 Hr. eapply test_anchored_complete.
  eapply M_Seq; [by apply M_Lit|].
  eapply M_Seq; [apply M_OptNone | exact Hr].
Qed.

(** /^l1[- ]?rest/i, with the separator *)
Lemma test_lit_sep_then l1 sep rest s b :
  isHyphenOrSpace sep = true -> sep < 65 ->
  litPrefix true (l1 ++ [sep]) s = true ->
  matches true rest (advance 1 (advance (length l1) (mkMS 0 s None))) b ->
  test (mkRegExp
          (Seq Bol (Seq (Lit l1) (Seq (Opt (Class isHyphenOrSpace)) rest)))
          true) s = true.
Proof.
  intros Hsep Hlt. rewrite litPrefix_app.
  intros [H1 H2]%andb_true_iff Hr.
  apply litPrefix_cons in H2 as (c & t & E & Hc & _).
  assert (canonicalize true sep = sep) as Hs.
  { unfold canonicalize, upperAscii.
    destruct (N.leb_spec 97 sep); simpl; [lia | done]. }
  rewrite Hs in Hc. apply canonicalize_punctuation in Hc; [|done]. subst c.
  eapply test_anchored_complete.
  eapply M_Seq; [by apply M_Lit|].
  eapply M_Seq; [apply M_OptSome; eapply M_Class; [exact E | done]|].
  exact Hr.
Qed.

Lemma litPrefix_nonempty ic a l s :
  litPrefix ic (a :: l) s = true -> truthy s = true.
Proof. by destruct s. Qed.

(** A line that starts with a header phrase, in any letter case, matches
    a section pattern, whatever follows the phrase. *)
Lemma headerPhrase_matches phrase line :
  phrase ∈ headerPhrases -> litPrefix true phrase line = true ->
  matchesSome sectionPatterns line = true.
Proof.
  unfold headerPhrases. intros Hin H.
  repeat (apply elem_of_cons in Hin as [-> | Hin]).
  - (* next steps *)
    eapply matchesSome_intro; [left; reflexivity|].
    change (js "next steps") with (js "next" ++ [32] ++ js "steps") in H.
    rewrite !litPrefix_app in H.
    apply andb_true_iff in H as [H1 [H2 H3]%andb_true_iff].
    apply litPrefix_cons in H2 as (c & t & E & Hc & _).
    apply canonicalize_punctuation in Hc; [|done]. subst c.
    apply (test_lit_spaces_lit _ _ _ 1 H1).
    + rewrite E. simpl. lia.
    + by rewrite E in *.
  - (* nextsteps *)
    eapply matchesSome_intro; [left; reflexivity|].
    change (js "nextsteps") with (js "next" ++ js "steps") in H.
    rewrite litPrefix_app in H. apply andb_true_iff in H as [H1 H2].
    apply (test_lit_spaces_lit _ _ _ 0 H1); [lia | by rewrite drop_0].
  - (* action items *)
    eapply matchesSome_intro; [right; left; reflexivity|].
    change (js "action items") with (js "action" ++ [32] ++ js "items") in H.
    rewrite !litPrefix_app in H.
    apply andb_true_iff in H as [H1 [H2 H3]%andb_true_iff].
    apply litPrefix_cons in H2 as (c & t & E & Hc & _).
    apply canonicalize_punctuation in Hc; [|done]. subst c.
    apply (test_lit_spaces_lit _ _ _ 1 H1).
    + rewrite E. simpl. lia.
    + by rewrite E in *.
  - (* actionitems *)
    eapply matchesSome_intro; [right; left; reflexivity|].
    change (js "actionitems") with (js "action" ++ js "items") in H.
    rewrite litPrefix_app in H. apply andb_true_iff in H as [H1 H2].
    apply (test_lit_spaces_lit _ _ _ 0 H1); [lia | by rewrite drop_0].
  - (* follow up *)
    eapply matchesSome_intro; [do 2 right; left; reflexivity|].
    change (js "follow up") with ((js "follow" ++ [32]) ++ js "up") in H.
    rewrite litPrefix_app in H. apply andb_true_iff in H as [H1 H2].
    eapply (test_lit_sep_then _ 32); [done | done | exact H1 |].
    eapply M_Seq; [apply M_Lit | apply M_OptNone].
    simpl. by rewrite drop_drop.
  - (* follow-up *)
    eapply matchesSome_intro; [do 2 right; left; reflexivity|].
    change (js "follow-up") with ((js "follow" ++ [45]) ++ js "up") in H.
    rewrite litPrefix_app in H. apply andb_true_iff in H as [H1 H2].
    eapply (test_lit_sep_then _ 45); [done | done | exact H1 |].
    eapply M_Seq; [apply M_Lit | apply M_OptNone].
    simpl. by rewrite drop_drop.
  - (* followup *)
    eapply matchesSome_intro; [do 2 right; left; reflexivity|].
    change (js "followup") with (js "follow" ++ js "up") in H.
    rewrite litPrefix_app in H. apply andb_true_iff in H as [H1 H2].
    eapply test_lit_then; [exact H1|].
    eapply M_Seq; [by apply M_Lit | apply M_OptNone].
  - (* to do *)
    eapply matchesSome_intro; [do 3 right; left; reflexivity|].
    change (js "to do") with ((js "to" ++ [32]) ++ js "do") in H.
    rewrite litPrefix_app in H. apply andb_true_iff in H as [H1 H2].
    eapply (test_lit_sep_then _ 32); [done | done | exact H1 |].
    apply M_Lit. simpl. by rewrite drop_drop.
  - (* to-do *)
    eapply matchesSome_intro; [do 3 right; left; reflexivity|].
    change (js "to-do") with ((js "to" ++ [45]) ++ js "do") in H.
    rewrite litPrefix_app in H. apply andb_true_iff in H as [H1 H2].
    eapply (test_lit_sep_then _ 45); [done | done | exact H1 |].
    apply M_Lit. simpl. by rewrite drop_drop.
  - (* todo *)
    eapply matchesSome_intro; [do 3 right; left; reflexivity|].
    change (js "todo") with (js "to" ++ js "do") in H.
    rewrite litPrefix_app in H. apply andb_true_iff in H as [H1 H2].
    eapply test_lit_then; [exact H1|]. by apply M_Lit.
  - (* task: *)
    eapply matchesSome_intro; [do 4 right; left; reflexivity|].
    change (js "task:") with (js "task" ++ js ":") in H.
    rewrite litPrefix_app in H. apply andb_true_iff in H as [H1 H2].
    eapply test_anchored_complete.
    eapply M_Seq; [by apply M_Lit|].
    eapply M_Seq; [apply M_OptNone|].
    eapply M_Seq; [apply (M_Rep _ _ _ _ 0); simpl; lia|].
    apply M_Lit. simpl. by rewrite drop_0.
  - (* tasks: *)
    eapply matchesSome_intro; [do 4 right; left; reflexivity|].
    change (js "tasks:") with (js "task" ++ js "s" ++ js ":") in H.
    rewrite !litPrefix_app in H.
    apply andb_true_iff in H as [H1 [H2 H3]%andb_true_iff].
    eapply test_anchored_complete.
    eapply M_Seq; [by apply M_Lit|].
    eapply M_Seq; [apply M_OptSome; by apply M_Lit|].
    eapply M_Seq; [apply (M_Rep _ _ _ _ 0); simpl; lia|].
    apply M_Lit. simpl. by rewrite drop_0.
  - (* deliverables *)
    eapply matchesSome_intro; [do 5 right; left; reflexivity|].
    eapply test_anchored_complete. by apply M_Lit.
  - by apply elem_of_nil in Hin.
Qed.

Section MoreExtraction2.

Variable toLowerCase : jsstring -> jsstring.

(** X3. A line that starts with "next steps", "action items",
    "follow up", "to do", "tasks:", "deliverables" or one of their
    variants, in any letter case, is consumed as a header whatever follows
    the phrase: it opens a section, changes neither the carried owner nor
    the candidates, and is never a candidate itself. *)
Theorem header_phrase_line_is_consumed attendees raw st phrase :
  phrase ∈ headerPhrases ->
  litPrefix true phrase (trim raw) = true ->
  loopBody toLowerCase attendees raw st
  = Normal (mkLoop true (currentOwner st) (items st)).
Proof.
  intros Hin H. rewrite loopBody_eq.
  assert (truthy (trim raw) = true) as ->.
  { destruct phrase as [|a l]; [|by eapply litPrefix_nonempty].
    exfalso. unfold headerPhrases in Hin.
    repeat (apply elem_of_cons in Hin as [Hin | Hin]; [done|]).
    by apply elem_of_nil in Hin. }
  unfold bodyResult. by rewrite (headerPhrase_matches _ _ Hin H).
Qed.

End MoreExtraction2.

(** * [stripHtml] *)

Lemma replaceFrom_skip re rep s : forall k i,
  (k <= length s)%nat ->
  replaceFrom re rep k i s = replaceFrom re rep 0 (i + k) (drop k s).
Proof.
  induction s as [|c t IH]; intros k i Hk; simpl in Hk.
  - replace k with 0%nat by lia. by rewrite Nat.add_0_r.
  - destruct k as [|k]; [by rewrite Nat.add_0_r|].
    simpl. rewrite IH by lia. f_equal. lia.
Qed.

Lemma matcher_plus ic p i s cap :
  matcher ic (plus p) (mkMS i s cap) Some
  = if (1 <=? runLength p s)%nat
    then Some (mkMS (i + runLength p s) (drop (runLength p s) s) cap)
    else None.
Proof.
  unfold plus. cbn [matcher capRun remaining].
  destruct (1 <=? runLength p s)%nat; [|done].
  by rewrite (tryDown_first _ _ _ _ _ eq_refl).
Qed.

(** The white-space pass: a run of white space becomes one space. *)
Lemma collapse_cons i c t :
  replaceFrom whitespacePattern (js " ") 0 i (c :: t)
  = if isSpace c
    then 32 :: replaceFrom whitespacePattern (js " ") 0
                 (S i + runLength isSpace t) (dropWhile isSpace t)
    else c :: replaceFrom whitespacePattern (js " ") 0 (S i) t.
Proof.
  cbn [replaceFrom whitespacePattern source ignoreCase].
  rewrite matcher_plus. cbn [runLength].
  destruct (isSpace c); simpl; [|done].
  replace (i + S (runLength isSpace t) - i)%nat
    with (S (runLength isSpace t)) by lia.
  rewrite replaceFrom_skip by apply runLength_le.
  by rewrite drop_runLength.
Qed.

Lemma collapse_nil i :
  replaceFrom whitespacePattern (js " ") 0 i [] = [].
Proof. reflexivity. Qed.

Lemma dropWhile_length p s : (length (dropWhile p s) <= length s)%nat.
Proof.
  induction s as [|c t IH]; simpl; [lia|]. destruct (p c); simpl; lia.
Qed.

Lemma collapse_singleSpaced n : forall s i,
  (length s <= n)%nat ->
  singleSpaced (replaceFrom whitespacePattern (js " ") 0 i s)
  /\ (forall c t, s = c :: t -> isSpace c = false ->
      exists t', replaceFrom whitespacePattern (js " ") 0 i s = c :: t').
Proof.
  induction n as [|n IH]; intros s i Hn.
  - destruct s; simpl in Hn; [|lia]. split; [done|]. by intros c t.
  - destruct s as [|c t]; [split; [done | by intros c t]|].
    simpl in Hn. rewrite collapse_cons.
    destruct (isSpace c) eqn:Hc.
    + split; [|intros c' t' [= <- <-]; congruence].
      pose proof (dropWhile_length isSpace t).
      destruct (IH (dropWhile isSpace t) (S i + runLength isSpace t)%nat)
        as [S1 S2]; [lia|].
      cbn [singleSpaced]. split; [|done]. intros _. split; [done|].
      destruct (dropWhile isSpace t) as [|d u] eqn:D; [done|].
      destruct (S2 d u eq_refl (dropWhile_head _ _ _ _ D)) as [t' ->].
      by eapply dropWhile_head.
    + destruct (IH t (S i)) as [S1 S2]; [lia|].
      split; [|intros c' t' [= <- <-] _; eauto].
      cbn [singleSpaced]. split; [congruence | done].
Qed.

Lemma singleSpaced_suffix pre s : singleSpaced (pre ++ s) -> singleSpaced s.
Proof. induction pre as [|c t IH]; simpl; [done|]. intros [_ H]. auto. Qed.

Lemma singleSpaced_prefix s suf : singleSpaced (s ++ suf) -> singleSpaced s.
Proof.
  induction s as [|c t IH]; simpl; [done|]. intros [H1 H2].
  split; [|auto]. intros Hc. destruct (H1 Hc) as [-> Hn]. split; [done|].
  by destruct t.
Qed.

Lemma trim_infix s : exists a b, s = a ++ trim s ++ b.
Proof.
  unfold trim.
  destruct (dropWhile_suffix isSpace s) as (a & Ea & _).
  destruct (dropWhile_suffix isSpace (reverse (dropWhile isSpace s)))
    as (b & Eb & _).
  exists a, (reverse b).
  apply (f_equal reverse) in Eb. rewrite reverse_involutive, reverse_app in Eb.
  by rewrite <- Eb.
Qed.

Lemma singleSpaced_trim s : singleSpaced s -> singleSpaced (trim s).
Proof.
  destruct (trim_infix s) as (a & b & E). intros H. rewrite E in H.
  by apply singleSpaced_suffix, singleSpaced_prefix in H.
Qed.

Lemma singleSpaced_elem s c :
  singleSpaced s -> c ∈ s -> isSpace c = true -> c = 32.
Proof.
  induction s as [|a t IH]; simpl; [by intros _ ?%elem_of_nil|].
  intros [H1 H2] [-> | Hin]%elem_of_cons Hc; [by destruct (H1 Hc) | auto].
Qed.

Lemma split_no_separator sep s : sep ∉ s -> split sep s = [s].
Proof.
  induction s as [|c t IH]; simpl; [done|]. intros Hn.
  destruct (N.eqb_spec c sep) as [->|]; [exfalso; apply Hn; by left|].
  rewrite IH; [done|]. intros ?. apply Hn. by right.
Qed.

(** X4. Whatever the markup, the stripped text is one trimmed line. Its
    only white-space characters are single spaces between other
    characters, so that it holds no line feed: an HTML list or several
    paragraphs reach the extraction as one line. *)
Theorem stripHtml_single_line html :
  trimmed (stripHtml html)
  /\ singleSpaced (stripHtml html)
  /\ (forall c, c ∈ stripHtml html -> isSpace c = true -> c = 32)
  /\ split 10 (stripHtml html) = [stripHtml html].
Proof.
  assert (singleSpaced (stripHtml html)) as S.
  { unfold stripHtml. apply singleSpaced_trim. unfold replaceAll at 1.
    by eapply collapse_singleSpaced. }
  split; [apply trim_trimmed|]. split; [done|].
  split; [intros c; by apply singleSpaced_elem|].
  apply split_no_separator. intros Hin.
  by pose proof (singleSpaced_elem _ _ S Hin eq_refl).
Qed.

Lemma litPrefix_first_differs a l s :
  (forall t, s <> a :: t) -> litPrefix false (a :: l) s = false.
Proof.
  destruct s as [|c t]; simpl; [done|]. intros H.
  destruct (N.eqb_spec c a) as [->|]; [by destruct (H t) | done].
Qed.

(** A pattern that can only match at an occurrence of [a] leaves a text
    without [a] as it is. *)
Lemma replaceFrom_unchanged re rep a s :
  (forall st k, (forall t, remaining st <> a :: t) ->
                matcher (ignoreCase re) (source re) st k = None) ->
  a ∉ s -> forall i, replaceFrom re rep 0 i s = s.
Proof.
  intros H. induction s as [|c t IH]; intros Hn i; simpl.
  - by rewrite H.
  - rewrite H.
    + rewrite IH; [done|]. intros ?. apply Hn. by right.
    + simpl. intros t' [= -> _]. apply Hn. by left.
Qed.

Lemma replaceAll_literal_unchanged a l rep s :
  a ∉ s -> replaceAll (mkRegExp (Lit (a :: l)) false) rep s = s.
Proof.
  intros Hn. apply (replaceFrom_unchanged _ _ a); [|done].
  intros st k Hs. cbn [source ignoreCase matcher].
  by rewrite litPrefix_first_differs.
Qed.

Lemma replaceAll_tag_unchanged s :
  60 ∉ s -> replaceAll tagPattern (js " ") s = s.
Proof.
  intros Hn. apply (replaceFrom_unchanged _ _ 60); [|done].
  intros st k Hs. unfold tagPattern. cbn [source ignoreCase cat matcher].
  change (js "<") with [60]. by rewrite litPrefix_first_differs.
Qed.

Lemma collapse_unchanged s : forall i,
  singleSpaced s -> replaceFrom whitespacePattern (js " ") 0 i s = s.
Proof.
  induction s as [|c t IH]; intros i; [done|].
  intros [H1 H2]. rewrite collapse_cons.
  destruct (isSpace c) eqn:Hc; [|by rewrite IH].
  destruct (H1 eq_refl) as [-> Hn].
  destruct t as [|d u]; [done|].
  rewrite dropWhile_id by done. by rewrite IH.
Qed.

Lemma trimmed_unfold s : trimmed s -> trim s = s.
Proof. done. Qed.

(** X5. Plain text passes through unchanged: a text without [<] and [&]
    that is trimmed and single-spaced is its own stripped text. *)
Theorem stripHtml_plain_text html :
  60 ∉ html -> 38 ∉ html -> trimmed html -> singleSpaced html ->
  stripHtml html = html.
Proof.
  intros Hlt Hamp Ht Hs. unfold stripHtml.
  rewrite replaceAll_tag_unchanged by done.
  unfold nbspPattern, ampPattern, ltPattern, gtPattern.
  change (js "&nbsp;") with (38 :: js "nbsp;").
  change (js "&amp;") with (38 :: js "amp;").
  change (js "&lt;") with (38 :: js "lt;").
  change (js "&gt;") with (38 :: js "gt;").
  rewrite (replaceAll_literal_unchanged 38 (js "nbsp;")) by done.
  rewrite (replaceAll_literal_unchanged 38 (js "amp;")) by done.
  rewrite (replaceAll_literal_unchanged 38 (js "lt;")) by done.
  rewrite (replaceAll_literal_unchanged 38 (js "gt;")) by done.
  unfold replaceAll. by rewrite collapse_unchanged.
Qed.

(** * [getAttendeeNames] *)

Lemma spreadSet_elem seen names n :
  n ∈ spreadSet seen names <-> n ∈ names /\ n ∉ seen.
Proof.
  revert seen. induction names as [|a l IH]; intros seen; simpl.
  - split; [by intros ?%elem_of_nil | by intros [?%elem_of_nil _]].
  - destruct (decide (a ∈ seen)) as [Hin|Hin].
    + rewrite IH, elem_of_cons. split.
      * intros [? ?]. split; [by right | done].
      * intros [[-> | ?] ?]; [done | by split].
    + rewrite elem_of_cons, IH, elem_of_cons, not_elem_of_union,
        not_elem_of_singleton.
      split.
      * intros [-> | [? [? ?]]]; [split; [by left | done]|].
        split; [by right | done].
      * intros [[-> | ?] ?]; [by left|].
        destruct (decide (n = a)) as [->|]; [by left | by right].
Qed.

Lemma spreadSet_NoDup seen names : NoDup (spreadSet seen names).
Proof.
  revert seen. induction names as [|a l IH]; intros seen; simpl.
  - constructor.
  - destruct (decide (a ∈ seen)); [apply IH|].
    constructor; [|apply IH]. rewrite spreadSet_elem.
    intros [_ Hn]. apply Hn, elem_of_union. left. by apply elem_of_singleton.
Qed.

Lemma spreadSet_head seen n names :
  n ∉ seen -> spreadSet seen (n :: names)
              = n :: spreadSet ({[n]} ∪ seen) names.
Proof. intros H. simpl. by rewrite decide_False. Qed.

(** The name pushed for an attendee. *)
Lemma displayName_nonempty a :
  orElse (Attendee.fullName a) (orElse (Attendee.email a) (js "Unknown"))
  <> [].
Proof. by apply orElse_nonempty, orElse_nonempty. Qed.

Lemma getAttendeeNames_nonempty doc n :
  n ∈ getAttendeeNames doc -> n <> [].
Proof.
  unfold getAttendeeNames. rewrite spreadSet_elem. intros [Hin _].
  assert (forall x, x ∈ match Document.creatorName doc with
                        | Some n0 => if truthy n0 then [n0] else []
                        | None => []
                        end -> x <> []) as Hc.
  { intros x. destruct (Document.creatorName doc) as [[|c t]|]; simpl;
      try by intros ?%elem_of_nil.
    by intros ->%list_elem_of_singleton. }
  destruct (Document.attendees doc) as [l|]; [|by apply Hc].
  apply elem_of_app in Hin as [Hin | Hin]; [by apply Hc|].
  apply list_elem_of_fmap in Hin as (a & -> & _).
  apply displayName_nonempty.
Qed.

(** X6. The attendee names are distinct and none is empty; the creator
    comes first when the document names one; every attendee is there under
    the full name, or else the e-mail address, or else "Unknown". *)
Theorem getAttendeeNames_distinct_nonempty doc :
  NoDup (getAttendeeNames doc)
  /\ (forall n, n ∈ getAttendeeNames doc -> n <> [])
  /\ (forall n, Document.creatorName doc = Some n -> n <> [] ->
        exists rest, getAttendeeNames doc = n :: rest)
  /\ (forall l a, Document.attendees doc = Some l -> a ∈ l ->
        orElse (Attendee.fullName a)
          (orElse (Attendee.email a) (js "Unknown"))
        ∈ getAttendeeNames doc).
Proof.
  split; [apply spreadSet_NoDup|].
  split; [apply getAttendeeNames_nonempty|].
  split.
  - intros n Hc Hn. unfold getAttendeeNames. rewrite Hc.
    destruct n as [|c t]; [done|]. cbn [truthy].
    destruct (Document.attendees doc); simpl; eauto.
  - intros l a Hl Ha. unfold getAttendeeNames. rewrite Hl.
    rewrite spreadSet_elem. split; [|apply not_elem_of_empty].
    apply elem_of_app. right. apply list_elem_of_fmap. eauto.
Qed.

Section Pipeline.

Variable toLowerCase : jsstring -> jsstring.

(** X7. With the attendee names of a document, every item of the output
    has an owner that is a non-empty string, for every panel text. *)
Theorem owners_nonempty_with_attendee_names
    doc panelText meetingTitle meetingDate :
  exists out,
    extractActionItems toLowerCase panelText meetingTitle meetingDate
      (getAttendeeNames doc) = Normal out
    /\ forall it, it ∈ out -> exists o, owner it = Some o /\ o <> [].
Proof.
  rewrite extractActionItems_scan.
  destruct (scan_good toLowerCase (getAttendeeNames doc)
              (fun it => exists o, owner it = Some o /\ o <> [])
              (split 10 panelText) initialState) as (st' & -> & G).
  - constructor.
  - intros raw it _ (_ & _ & _ & (o & Ho & He) & _).
    exists o. split; [done|]. intros ->.
    by apply find_elem, getAttendeeNames_nonempty in He.
  - cbn [mbind completion_bind]. eexists. split; [done|].
    intros it Hit. apply filterSeen_elem in Hit as [Hit _].
    rewrite Forall_forall in G. by apply G.
Qed.

End Pipeline.

(** * The dataset *)

Lemma mathMax_ge_first xs : forall x, (x <= mathMax x xs)%Z.
Proof.
  unfold mathMax. induction xs as [|a l IH]; intros x; simpl; [lia|].
  etrans; [|apply IH]. lia.
Qed.

Lemma mathMax_ge x xs y : y ∈ x :: xs -> (y <= mathMax x xs)%Z.
Proof.
  intros [-> | Hin]%elem_of_cons; [apply mathMax_ge_first|].
  revert x. induction xs as [|a l IH]; intros x;
    [by apply elem_of_nil in Hin|].
  apply elem_of_cons in Hin as [-> | Hin].
  - etrans; [|apply (mathMax_ge_first l (Z.max x a))]. lia.
  - apply (IH Hin).
Qed.

Lemma mathMax_elem x xs : mathMax x xs ∈ x :: xs.
Proof.
  unfold mathMax. revert x. induction xs as [|a l IH]; intros x; simpl.
  - by left.
  - pose proof (IH (Z.max x a)) as H.
    apply elem_of_cons in H as [E | Hin].
    + rewrite E. destruct (Z.max_spec x a) as [[_ ->] | [_ ->]];
        [right; by left | by left].
    + right. by right.
Qed.

Lemma nextId_above items a :
  a ∈ items -> (idOrZero a < nextId items)%Z.
Proof.
  destruct items as [|b l]; [by intros ?%elem_of_nil|]. intros Hin. simpl.
  assert (idOrZero a ∈ idOrZero b :: (idOrZero <$> l)) as H.
  { apply elem_of_cons in Hin as [-> | Hin]; [by left|].
    right. apply list_elem_of_fmap. eauto. }
  pose proof (mathMax_ge _ _ _ H). lia.
Qed.

Lemma nextId_largest items :
  items <> [] -> exists a, a ∈ items /\ nextId items = (idOrZero a + 1)%Z.
Proof.
  destruct items as [|b l]; [done|]. intros _. simpl.
  pose proof (mathMax_elem (idOrZero b) (idOrZero <$> l)) as H.
  apply elem_of_cons in H as [E | H].
  - exists b. split; [by left | by rewrite E].
  - apply list_elem_of_fmap in H as (a & E & Hin).
    exists a. split; [by right | by rewrite E].
Qed.

(** X8. The next identifier is 1 for the empty dataset and otherwise one
    more than the largest identifier in use, an item without identifier
    counting as 0. It is larger than every identifier in use, so that it
    is never the identifier of an existing item. *)
Theorem nextId_is_fresh items :
  Forall (fun a => safeInteger (idOrZero a)) items ->
  (forall a, a ∈ items ->
     (idOrZero a < nextId items)%Z
     /\ ActionItem.id a <> Some (nextId items))
  /\ (items = [] -> nextId items = 1%Z)
  /\ (items <> [] ->
      exists a, a ∈ items /\ nextId items = (idOrZero a + 1)%Z)
  /\ (nextId items <= 2 ^ 53)%Z.
Proof.
  intros Hs. split; [|split; [by intros ->|split; [apply nextId_largest|]]].
  - intros a Hin. pose proof (nextId_above _ _ Hin) as H.
    split; [done|]. intros E. unfold idOrZero in H. rewrite E in H. lia.
  - destruct items as [|b l]; [by vm_compute|].
    destruct (nextId_largest (b :: l)) as (a & Hin & ->); [done|].
    rewrite Forall_forall in Hs. specialize (Hs a Hin).
    unfold safeInteger in Hs. lia.
Qed.

Lemma mathMax_snoc x xs y :
  mathMax x (xs ++ [y]) = Z.max (mathMax x xs) y.
Proof. unfold mathMax. by rewrite foldl_app. Qed.

Lemma nextId_snoc items a :
  idOrZero a = nextId items -> nextId (items ++ [a]) = (nextId items + 1)%Z.
Proof.
  intros E. destruct items as [|b l]; simpl in *.
  - unfold mathMax. simpl. lia.
  - rewrite fmap_app. simpl. rewrite mathMax_snoc. lia.
Qed.

Lemma addExtracted_closed title meetingDate clock extracted :
  forall k actionItems totalNewItems,
    addExtracted title meetingDate clock k extracted actionItems
      totalNewItems
    = (actionItems
       ++ imap (newItemAt title meetingDate clock k (nextId actionItems))
            extracted,
       (totalNewItems + length extracted)%nat).
Proof.
  induction extracted as [|ai ex IH]; intros k its total; simpl.
  - by rewrite app_nil_r, Nat.add_0_r.
  - rewrite IH, nextId_snoc by done. rewrite <- app_assoc. simpl.
    f_equal; [|lia]. f_equal. unfold newItemAt at 2. simpl.
    rewrite Z.add_0_r, Nat.add_0_r. f_equal.
    apply imap_ext. intros j x _. unfold newItemAt, compose.
    replace (nextId its + 1 + Z.of_nat j)%Z
      with (nextId its + Z.of_nat (S j))%Z by lia.
    by replace (S k + j)%nat with (k + S j)%nat by lia.
Qed.

Lemma imap_ids {A} (f : nat -> A -> ActionItem.t) (g : nat -> option Z) l :
  (forall j x, ActionItem.id (f j x) = g j) ->
  ActionItem.id <$> imap f l = g <$> seq 0 (length l).
Proof.
  revert f g. induction l as [|a l IH]; intros f g H; simpl; [done|].
  rewrite H. f_equal. rewrite (IH _ (g ∘ S)).
  - by rewrite <- fmap_S_seq, <- list_fmap_compose.
  - intros j x. apply H.
Qed.

(** X9. The loop over the extracted items appends one item for each, in
    their order, after the items the dataset holds, which it leaves as
    they are. The new identifiers count up from the next identifier; every
    new item is open, with the text and owner of the extracted item; and
    identifiers that were distinct stay distinct. *)
Theorem addExtracted_appends_with_fresh_ids
    title meetingDate clock k extracted actionItems totalNewItems :
  Forall (fun a => safeInteger (idOrZero a)) actionItems ->
  (nextId actionItems + Z.of_nat (length extracted) <= 2 ^ 53)%Z ->
  let result :=
    addExtracted title meetingDate clock k extracted actionItems
      totalNewItems in
  result.1
  = actionItems
    ++ imap (newItemAt title meetingDate clock k (nextId actionItems))
         extracted
  /\ result.2 = (totalNewItems + length extracted)%nat
  /\ Forall (fun a => (- 2 ^ 53 < idOrZero a <= 2 ^ 53)%Z) result.1
  /\ (NoDup (ActionItem.id <$> actionItems) ->
      NoDup (ActionItem.id <$> result.1)).
Proof.
  intros Hsafe Hbound result. subst result. rewrite addExtracted_closed.
  simpl. split; [done|]. split; [done|]. split.
  { apply Forall_app. split.
    - eapply Forall_impl; [exact Hsafe|]. unfold safeInteger. intros a. lia.
    - apply Forall_forall. intros a (j & x & -> & Hj)%elem_of_lookup_imap.
      apply lookup_lt_Some in Hj. unfold idOrZero, newItemAt. simpl.
      assert (- 2 ^ 53 < nextId actionItems)%Z; [|lia].
      destruct actionItems as [|b l]; [by vm_compute|].
      apply Forall_cons in Hsafe as [Hb _]. unfold safeInteger in Hb.
      assert (b ∈ b :: l) as Hin by (by left).
      pose proof (nextId_above (b :: l) b Hin). lia. }
  intros Hnd.
  rewrite fmap_app. apply NoDup_app. split; [done|].
  rewrite (imap_ids _ (fun j => Some (nextId actionItems + Z.of_nat j)%Z))
    by done.
  split.
  - intros i Hi (j & -> & _)%list_elem_of_fmap.
    apply list_elem_of_fmap in Hi as (a & E & Ha).
    pose proof (nextId_above _ _ Ha) as H. unfold idOrZero in H.
    rewrite <- E in H. lia.
  - apply NoDup_fmap_2; [|apply NoDup_seq].
    intros i j [= E]. lia.
Qed.

(** * The meeting log *)

Lemma find_none_elem {A} (f : A -> bool) l x :
  find f l = None -> x ∈ l -> f x = false.
Proof.
  induction l as [|a l IH]; simpl; [by intros _ ?%elem_of_nil|].
  destruct (f a) eqn:E; [done|].
  intros H [-> | Hin]%elem_of_cons; [done | by apply IH].
Qed.

Lemma find_some_holds {A} (f : A -> bool) l x :
  find f l = Some x -> f x = true.
Proof.
  induction l as [|a l IH]; simpl; [done|].
  destruct (f a) eqn:E; [by intros [= <-] | done].
Qed.

Lemma find_app_some {A} (f : A -> bool) l1 l2 x :
  find f l1 = Some x -> find f (l1 ++ l2) = Some x.
Proof.
  induction l1 as [|a l IH]; simpl; [done|]. by destruct (f a).
Qed.

Lemma find_snoc_none {A} (f : A -> bool) l x :
  find f l = None -> f x = true -> find f (l ++ [x]) = Some x.
Proof.
  induction l as [|a l IH]; simpl; [by intros _ ->|].
  destruct (f a); [done | apply IH].
Qed.

(** X10. The meeting log gets an entry only when none has the title and
    date of the meeting: the entries it holds stay as they are, titles and
    dates that were distinct stay distinct, the meeting has an entry
    afterwards, and logging it again changes nothing, whatever the
    participants and the count then are. *)
Theorem logMeeting_keeps_first_entry
    meetings title meetingDate attendees count attendees' count' :
  meetings `prefix_of` logMeeting meetings title meetingDate attendees count
  /\ (NoDup (logKey <$> meetings) ->
      NoDup (logKey
               <$> logMeeting meetings title meetingDate attendees count))
  /\ (title, meetingDate)
     ∈ logKey <$> logMeeting meetings title meetingDate attendees count
  /\ logMeeting
       (logMeeting meetings title meetingDate attendees count)
       title meetingDate attendees' count'
     = logMeeting meetings title meetingDate attendees count.
Proof.
  unfold logMeeting.
  set (f := fun m => bool_decide (MeetingLog.title m = title)
                      && bool_decide (MeetingLog.date m = meetingDate)).
  assert (forall m, f m = true <-> logKey m = (title, meetingDate)) as Hf.
  { intros m. unfold f, logKey.
    rewrite andb_true_iff, !bool_decide_eq_true. split; [|by intros [= -> ->]].
    by intros [-> ->]. }
  destruct (find f meetings) as [m|] eqn:F.
  - split; [done|]. split; [done|]. split; [|by rewrite F].
    apply list_elem_of_fmap. exists m.
    split; [symmetry; by apply Hf, (find_some_holds f meetings)|].
    by eapply find_elem.
  - set (new := MeetingLog.mk title meetingDate attendees count).
    assert (f new = true) as Hnew by (by apply Hf).
    split; [by apply prefix_app_r|]. split; [|split].
    + intros Hnd. rewrite fmap_app. apply NoDup_app. split; [done|].
      split; [|apply NoDup_singleton].
      intros key (m & -> & Hm)%list_elem_of_fmap
        (m' & E & ->%list_elem_of_singleton)%list_elem_of_fmap.
      pose proof (find_none_elem f _ _ F Hm) as Hfalse.
      assert (f m = true) by (by apply Hf). congruence.
    + rewrite fmap_app. apply elem_of_app. right. by left.
    + by rewrite (find_snoc_none f _ _ F Hnew).
Qed.

(** * The panel text *)

Lemma insertPanel_Permutation p l : insertPanel p l ≡ₚ p :: l.
Proof.
  induction l as [|q l IH]; simpl; [done|].
  destruct (_ <=? 0)%Z; [done|]. rewrite IH. apply Permutation_swap.
Qed.

Lemma sortPanels_Permutation ps : sortPanels ps ≡ₚ ps.
Proof.
  induction ps as [|p l IH]; simpl; [done|].
  by rewrite insertPanel_Permutation, IH.
Qed.

Lemma insertPanel_sorted p l :
  StronglySorted (fun a b => (orderOrZero a <= orderOrZero b)%Z) l ->
  StronglySorted (fun a b => (orderOrZero a <= orderOrZero b)%Z)
    (insertPanel p l).
Proof.
  induction 1 as [|q l Hs IH Hq]; simpl.
  - repeat constructor.
  - destruct (Z.leb_spec (orderOrZero p - orderOrZero q) 0).
    + constructor; [by constructor|].
      constructor; [lia|]. eapply Forall_impl; [exact Hq|].
      intros b Hb. simpl in Hb. lia.
    + constructor; [done|].
      rewrite insertPanel_Permutation. constructor; [lia | done].
Qed.

Lemma insertPanel_filter p l z :
  filter (fun a => orderOrZero a = z) (insertPanel p l)
  = filter (fun a => orderOrZero a = z) (p :: l).
Proof.
  induction l as [|q l IH]; simpl; [done|].
  destruct (Z.leb_spec (orderOrZero p - orderOrZero q) 0); [done|].
  rewrite (filter_cons _ q), IH, !filter_cons.
  destruct (decide (orderOrZero q = z)), (decide (orderOrZero p = z));
    try done.
  lia.
Qed.

(** X11. The panels enter the panel text in ascending order of their
    [order], a missing order counting as 0: the sort drops and duplicates
    nothing, and panels with the same order keep the sequence they have in
    the document. *)
Theorem sortPanels_stable_ascending docPanels :
  sortPanels docPanels ≡ₚ docPanels
  /\ StronglySorted (fun a b => (orderOrZero a <= orderOrZero b)%Z)
       (sortPanels docPanels)
  /\ forall z,
       filter (fun a => orderOrZero a = z) (sortPanels docPanels)
       = filter (fun a => orderOrZero a = z) docPanels.
Proof.
  split; [apply sortPanels_Permutation|]. split.
  - induction docPanels as [|p l IH]; simpl; [constructor|].
    by apply insertPanel_sorted.
  - intros z. induction docPanels as [|p l IH]; simpl; [done|].
    by rewrite insertPanel_filter, !filter_cons, IH.
Qed.

Lemma split_app_sep sep u v :
  split sep (u ++ sep :: v) = split sep u ++ split sep v.
Proof.
  induction u as [|c u IH]; simpl.
  - by rewrite N.eqb_refl.
  - destruct (c =? sep); [by rewrite IH|].
    rewrite IH. destruct (split sep u) eqn:E; [|done].
    by destruct (split_nonempty sep u).
Qed.

Lemma stripHtml_no_line_feed html : 10 ∉ stripHtml html.
Proof.
  intros Hin.
  assert (singleSpaced (stripHtml html)) as S.
  { unfold stripHtml. apply singleSpaced_trim. unfold replaceAll at 1.
    by eapply collapse_singleSpaced. }
  by pose proof (singleSpaced_elem _ _ S Hin eq_refl).
Qed.

Lemma split_panelBlock p :
  10 ∉ orElse (Panel.title p) [] ->
  split 10 (panelBlock p)
  = [orElse (Panel.title p) [] ++ js ":";
     stripHtml (orElse (Panel.original_content p) [])].
Proof.
  intros Ht. unfold panelBlock.
  rewrite (app_assoc _ (js ":")). simpl.
  rewrite split_app_sep, !split_no_separator; [done | |].
  - apply stripHtml_no_line_feed.
  - rewrite elem_of_app. intros [? | Hc]; [done|].
    by apply list_elem_of_singleton in Hc.
Qed.

Lemma split_panelText sorted :
  Forall (fun p => 10 ∉ orElse (Panel.title p) []) sorted ->
  split 10 (join [10; 10] (panelBlock <$> sorted)) = panelLines sorted.
Proof.
  induction 1 as [|p l Hp Hl IH]; [done|].
  destruct l as [|q l].
  - simpl. by rewrite split_panelBlock.
  - change (join [10; 10] (panelBlock <$> p :: q :: l))
      with (panelBlock p
            ++ 10 :: 10 :: join [10; 10] (panelBlock <$> q :: l)).
    rewrite split_app_sep, split_panelBlock by done.
    change (split 10 (10 :: ?x)) with ([] :: split 10 x).
    by rewrite IH.
Qed.

(** X12. When no panel title holds a line feed, the panel text has two
    lines for each panel, the title with a colon and the stripped content
    on one line, and one empty line between two panels. *)
Theorem panelText_lines docPanels :
  Forall (fun p => 10 ∉ orElse (Panel.title p) []) docPanels ->
  split 10 (panelTextOf docPanels) = panelLines (sortPanels docPanels).
Proof.
  intros H. apply split_panelText.
  by rewrite sortPanels_Permutation.
Qed.


Section PanelPipeline.

Variable toLowerCase : jsstring -> jsstring.


End PanelPipeline.

(** * The meetings to process *)

Lemma markProcessed_elem processedSet meetings i :
  i ∈ markProcessed processedSet meetings
  <-> i ∈ processedSet \/ i ∈ meetingId <$> meetings.
Proof.
  unfold markProcessed. revert processedSet.
  induction meetings as [|m l IH]; intros processedSet; simpl.
  - split; [by left|]. by intros [? | ?%elem_of_nil].
  - rewrite IH, elem_of_union, elem_of_singleton, elem_of_cons. tauto.
Qed.

(** X14. A meeting is selected only if it is not deleted, not marked as
    processed and has a panel; and once the selected meetings are marked,
    in whatever order they were processed, the same cache selects
    nothing: a second run has no meeting to process. *)
Theorem processed_meetings_are_not_selected_again
    docs panels processedSet processed :
  processed ≡ₚ newMeetings docs panels processedSet ->
  (forall m, m ∈ newMeetings docs panels processedSet ->
     m ∈ docs
     /\ truthyOpt (Document.deleted_at m.2) = false
     /\ (meetingId m ∉ processedSet)
     /\ (exists ps, panels !! meetingId m = Some ps /\ ps <> []))
  /\ newMeetings docs panels (markProcessed processedSet processed) = [].
Proof.
  intros Hp. split.
  - intros m. unfold newMeetings.
    rewrite !list_elem_of_filter. intros (Hpan & Hproc & Hdel & Hin).
    split; [done|]. split; [done|]. split; [done|].
    unfold hasPanels in Hpan.
    destruct (panels !! meetingId m) as [ps|]; [|done].
    exists ps. split; [done|]. by destruct ps.
  - apply elem_of_nil_inv. intros m. unfold newMeetings at 1.
    rewrite !list_elem_of_filter. intros (Hpan & Hproc & Hdel & Hin).
    apply Hproc. apply markProcessed_elem.
    destruct (decide (meetingId m ∈ processedSet)); [by left|]. right.
    apply list_elem_of_fmap. exists m. split; [done|].
    rewrite Hp. unfold newMeetings. by rewrite !list_elem_of_filter.
Qed.

(** A check by evaluation that a character does not occur. *)
Lemma not_elem_check (x : N) (l : jsstring) :
  forallb (fun c => negb (c =? x)) l = true -> x ∉ l.
Proof.
  intros H Hin. pose proof (forallb_elem _ _ _ H Hin) as E.
  simpl in E. by rewrite N.eqb_refl in E.
Qed.

(** A check by evaluation that a test fails on every line. *)
Lemma Forall_false_check {A} (f : A -> bool) l :
  forallb (fun x => negb (f x)) l = true -> Forall (fun x => f x = false) l.
Proof.
  induction l as [|x l IH]; simpl; [done|].
  intros [Hx Hl]%andb_true_iff. constructor; [|by apply IH].
  by destruct (f x).
Qed.

(** * Instances

    The properties above at concrete panel texts. The texts are ASCII, on
    which [toLowerCase] is [asciiLowerCase]. *)

Example exec_ownerPattern :
  exec ownerPattern (js "Blake Smith : send the deck")
  = Some (mkMatch 0 (js "Blake Smith :") (Some (js "Blake Smith"))).
Proof. by vm_compute. Qed.

Example exec_actionPattern :
  exec actionPattern (js "Then Jennifer needs to sign off")
  = Some (mkMatch 5 (js "Jennifer needs to sign off") (Some (js "sign off"))).
Proof. by vm_compute. Qed.

Example next_steps_owner_prefix :
  extractActionItems asciiLowerCase
    (js "Next Steps" ++ [10] ++ js "Blake: send the deck") [] [] []
  = Normal [mkItem (js "send the deck") (Some (js "Blake"))].
Proof. by vm_compute. Qed.

Example sentence_outside_section :
  extractActionItems asciiLowerCase
    (js "Jacob to review the contract by Friday") [] [] []
  = Normal [mkItem (js "Jacob to review the contract by Friday")
              (Some (js "Jacob"))].
Proof. by vm_compute. Qed.

Example duplicate_lines_collapse :
  extractActionItems asciiLowerCase
    (js "Action items:" ++ [10] ++ js "- Send the quarterly report"
     ++ [10] ++ js "* send the QUARTERLY report") [] [] []
  = Normal [mkItem (js "Send the quarterly report") (Some (js "Blake"))].
Proof. by vm_compute. Qed.

Lemma no_header_no_action_sentence_empty_witness :
  Forall (fun raw => matchesSome sectionPatterns (trim raw) = false
                     /\ matchesSome actionPatterns (trim raw) = false)
         (split 10 (js "Summary:" ++ [10] ++ js "We talked about the budget"))
  /\ extractActionItems asciiLowerCase
       (js "Summary:" ++ [10] ++ js "We talked about the budget") [] [] []
     = Normal [].
Proof.
  assert (Forall (fun raw => matchesSome sectionPatterns (trim raw) = false
                     /\ matchesSome actionPatterns (trim raw) = false)
         (split 10 (js "Summary:" ++ [10] ++ js "We talked about the budget")))
    as H by (vm_compute; repeat constructor).
  split; [exact H|].
  exact (no_header_no_action_sentence_empty asciiLowerCase _ [] [] [] H).
Defined.

(** C2 as stated fails: outside a section the owner-prefix line
    "Jacob: call the client" leaves the carried owner unset, and the plain
    line of the section that follows gets the default owner. Inside a
    section the line "Tasks: send the deck" matches the owner-prefix
    pattern too, and is consumed as a header. *)
Lemma owner_prefix_outside_section_counterexample :
  m1 <$> exec ownerPattern (js "Jacob: call the client")
  = Some (Some (js "Jacob"))
  /\ loopBody asciiLowerCase [] (js "Jacob: call the client") initialState
     = Normal initialState
  /\ extractActionItems asciiLowerCase
       (js "Jacob: call the client" ++ [10] ++ js "Next Steps" ++ [10]
        ++ js "write the long report") [] [] []
     = Normal [mkItem (js "write the long report") (Some (js "Blake"))]
  /\ m1 <$> exec ownerPattern (js "Tasks: send the deck")
     = Some (Some (js "Tasks"))
  /\ loopBody asciiLowerCase [] (js "Tasks: send the deck")
       (mkLoop true None [])
     = Normal (mkLoop true None []).
Proof. vm_compute. repeat split. Qed.

Lemma owner_prefix_sets_owner_inside_section_witness :
  exists st',
    scan asciiLowerCase []
      [js "Jacob: call the client"; js "## Summary"; js "Next Steps:";
       js "write the long report"]
      (mkLoop true None [])
    = Normal st'
    /\ currentOwner st' = Some (js "Jacob").
Proof.
  destruct (owner_prefix_sets_owner_inside_section asciiLowerCase []
              (js "Jacob: call the client") (mkLoop true None [])
              (mkMatch 0 (js "Jacob:") (Some (js "Jacob")))
              [js "## Summary"; js "Next Steps:"; js "write the long report"])
    as (name & Hn & _ & Hin & _).
  - by vm_compute.
  - by vm_compute.
  - by vm_compute.
  - vm_compute. repeat (constructor; [(by left) || (by right)|]). constructor.
  - destruct (Hin eq_refl) as (_ & st' & E & Ho).
    exists st'. split; [exact E|]. rewrite Ho. exact (eq_sym Hn).
Defined.

(** C3 as stated fails: inside a section the standalone rule does not
    run. The short line "Al to run" matches the name-plus-modal pattern
    and yields nothing, and a longer sentence yields the one candidate of
    the plain-content rule, with the default owner. A header line that
    holds such a sentence is consumed as a header. Outside a section, a
    sentence that does not start the line gets the default owner. *)
Lemma standalone_inside_section_counterexample :
  m0 <$> exec actionPattern (js "Al to run") = Some (js "Al to run")
  /\ extractActionItems asciiLowerCase
       (js "Next Steps" ++ [10] ++ js "Al to run") [] [] []
     = Normal []
  /\ scan asciiLowerCase []
       [js "Next Steps"; js "Jacob to review the contract by Friday"]
       initialState
     = Normal (mkLoop true None
                 [mkItem (js "Jacob to review the contract by Friday")
                    (Some (js "Blake"))])
  /\ extractActionItems asciiLowerCase (js "Follow up: Al to run") [] [] []
     = Normal []
  /\ extractActionItems asciiLowerCase (js "- Jacob will call") [] [] []
     = Normal [mkItem (js "Jacob will call") (Some (js "Blake"))].
Proof. vm_compute. repeat split. Qed.

Lemma standalone_sentence_only_outside_section_witness :
  loopBody asciiLowerCase [] (js "Then Jacob will call") initialState
  = Normal (mkLoop false None
              [mkItem (js "Jacob will call") (Some (js "Then Jacob"))]).
Proof.
  destruct (standalone_sentence_only_outside_section asciiLowerCase []
              (js "Then Jacob will call") initialState
              (mkMatch 5 (js "Jacob will call") (Some (js "call"))))
    as (_ & _ & Hout & _).
  - by vm_compute.
  - by vm_compute.
  - exact (Hout eq_refl).
Defined.

(** C4 as stated fails for the bullet marker: the owner-prefix rule does
    not remove it. Inside a section the line [Blake: - send the deck]
    gives an item whose text begins with the marker. *)
Lemma action_item_invariant_counterexample :
  extractActionItems asciiLowerCase
    (js "Next Steps" ++ [10] ++ js "Blake: - send the deck") [] [] []
  = Normal [mkItem (js "- send the deck") (Some (js "Blake"))].
Proof. vm_compute. reflexivity. Qed.

(** The two exceptions of the invariant occur: a standalone match that a
    carriage return cuts short after a space ends in that space, and an
    attendee whose name is the empty string becomes the owner. A carriage
    return at the end of a line is trimmed away with the line. *)
Example standalone_match_cut_short :
  extractActionItems asciiLowerCase
    (js "Al to go " ++ [13] ++ js "x") [] [] []
  = Normal [mkItem (js "Al to go ") (Some (js "Al"))]
  /\ trim (js "Al to go ") <> js "Al to go ".
Proof. vm_compute. split; [reflexivity | discriminate]. Qed.

Example carriage_return_at_line_end :
  extractActionItems asciiLowerCase
    (js "Al to go " ++ [13; 10] ++ js "Cole will call the client " ++ [13; 10])
    [] [] []
  = Normal [mkItem (js "Al to go") (Some (js "Al"));
            mkItem (js "Cole will call the client") (Some (js "Cole"))].
Proof. vm_compute. reflexivity. Qed.

Example empty_attendee_name_is_owner :
  extractActionItems asciiLowerCase
    (js "Next Steps" ++ [10] ++ js "write the long report") [] [] [[]]
  = Normal [mkItem (js "write the long report") (Some [])].
Proof. vm_compute. reflexivity. Qed.

Lemma heading_closes_section_witness :
  scan asciiLowerCase []
    [js "## Summary"; js "some content line here"] (mkLoop true None [])
  = Normal (mkLoop false None []).
Proof.
  refine (proj2 (heading_closes_section asciiLowerCase [] (js "## Summary")
                   2 32 (js "Summary") (mkLoop true None [])
                   [js "some content line here"] _ _ _ _ _)).
  - reflexivity.
  - lia.
  - reflexivity.
  - by vm_compute.
  - vm_compute. repeat constructor.
Defined.

Lemma attendee_full_name_first_match_witness :
  extractActionItems asciiLowerCase
    (js "Next Steps" ++ [10] ++ js "Jenna will send invites") [] []
    [js "Jenna Smith"; js "Cole Diaz"]
  = Normal [mkItem (js "Jenna will send invites") (Some (js "Jenna Smith"))].
Proof.
  exact (proj1 (attendee_full_name_first_match asciiLowerCase
                  (fun s _ => eq_refl)) [] []).
Defined.

Lemma carried_owner_survives_sections_witness :
  scan asciiLowerCase [js "Jenna Smith"]
    [js "## Summary"; js "Summary: the team met"; js "";
     js "Action Items";
     js "Jenna will send invites"; js "- book the meeting room"; js "short"]
    (mkLoop true (Some (js "Jacob"))
       [mkItem (js "draft the plan") (Some (js "Jacob"))])
  = Normal (mkLoop true (Some (js "Jacob"))
              [mkItem (js "draft the plan") (Some (js "Jacob"));
               mkItem (js "Jenna will send invites") (Some (js "Jacob"));
               mkItem (js "book the meeting room") (Some (js "Jacob"))]).
Proof.
  apply (carried_owner_survives_sections asciiLowerCase [js "Jenna Smith"]
           (mkLoop true (Some (js "Jacob"))
              [mkItem (js "draft the plan") (Some (js "Jacob"))])
           (js "Jacob") (js "## Summary")
           [js "Summary: the team met"; js ""] (js "Action Items")
           [js "Jenna will send invites"; js "- book the meeting room";
            js "short"]).
  - reflexivity.
  - reflexivity.
  - discriminate.
  - vm_compute. reflexivity.
  - vm_compute. reflexivity.
  - apply Forall_false_check. vm_compute. reflexivity.
  - vm_compute. reflexivity.
  - vm_compute. reflexivity.
Defined.

(** ** Instances of the further properties *)

Lemma section_stays_open_without_terminator_witness :
  exists st',
    scan asciiLowerCase []
      [js "Blake: send the deck"; []; js "Summary:";
       js "We talked about the budget"]
      (mkLoop true None [])
    = Normal st'
    /\ inActionSection st' = true.
Proof.
  apply (section_stays_open_without_terminator asciiLowerCase).
  - reflexivity.
  - vm_compute. repeat constructor.
Defined.

Lemma header_phrase_line_is_consumed_witness :
  loopBody asciiLowerCase []
    (js "Follow up with the vendor on pricing") initialState
  = Normal (mkLoop true None []).
Proof.
  apply (header_phrase_line_is_consumed asciiLowerCase [] _ initialState
           (js "follow up")).
  - unfold headerPhrases. do 4 right. left.
  - by vm_compute.
Defined.

Lemma stripHtml_plain_text_witness :
  stripHtml (js "Blake to send the deck") = js "Blake to send the deck".
Proof.
  apply stripHtml_plain_text.
  - apply not_elem_check. by vm_compute.
  - apply not_elem_check. by vm_compute.
  - by vm_compute.
  - vm_compute. repeat split; discriminate.
Defined.

Lemma nextId_is_fresh_witness :
  nextId [ActionItem.mk (Some 7%Z) (js "send the deck") (Some (js "Blake"))
            None (js "open") [] [] [] None [];
          ActionItem.mk None (js "call the client") None None (js "open")
            [] [] [] None []]
  = 8%Z.
Proof.
  destruct (nextId_is_fresh
              [ActionItem.mk (Some 7%Z) (js "send the deck")
                 (Some (js "Blake")) None (js "open") [] [] [] None [];
               ActionItem.mk None (js "call the client") None None
                 (js "open") [] [] [] None []]) as (_ & _ & _ & _).
  - repeat constructor; by vm_compute.
  - reflexivity.
Defined.

Lemma addExtracted_appends_with_fresh_ids_witness :
  ActionItem.id
  <$> (addExtracted (js "Weekly") (js "2024-05-01") (fun _ => js "2024-05-02")
         0
         [mkItem (js "send the deck") (Some (js "Blake"));
          mkItem (js "call the client") (Some (js "Jacob"))]
         [ActionItem.mk (Some 7%Z) (js "older item") None None (js "open")
            [] [] [] None []] 0).1
  = [Some 7%Z; Some 8%Z; Some 9%Z].
Proof.
  destruct (addExtracted_appends_with_fresh_ids (js "Weekly")
              (js "2024-05-01") (fun _ => js "2024-05-02") 0
              [mkItem (js "send the deck") (Some (js "Blake"));
               mkItem (js "call the client") (Some (js "Jacob"))]
              [ActionItem.mk (Some 7%Z) (js "older item") None None
                 (js "open") [] [] [] None []] 0) as (E & _).
  - repeat constructor; by vm_compute.
  - by vm_compute.
  - by rewrite E.
Defined.

Lemma panelText_lines_witness :
  split 10
    (panelTextOf
       [Panel.mk (Some (js "Next Steps")) (Some 2%Z)
          (Some (js "<ul><li>Blake to send the deck</li></ul>"));
        Panel.mk (Some (js "Summary")) None
          (Some (js "<p>We talked</p>"))])
  = [js "Summary:"; js "We talked"; [];
     js "Next Steps:"; js "Blake to send the deck"].
Proof.
  rewrite panelText_lines; [by vm_compute|].
  repeat constructor; apply not_elem_check; by vm_compute.
Defined.


Lemma processed_meetings_are_not_selected_again_witness :
  let docs :=
    [(js "m1", Document.mk None None (Some (js "Blake")) None);
     (js "m2", Document.mk None (Some (js "2024-05-01")) None None)] in
  let panels : gmap jsstring (list Panel.t) :=
    {[ js "m1" := [Panel.mk (Some (js "Summary")) None None] ]} in
  newMeetings docs panels
    (markProcessed ∅ (newMeetings docs panels ∅)) = [].
Proof.
  intros docs panels.
  apply (processed_meetings_are_not_selected_again docs panels ∅).
  reflexivity.
Defined.
